(** * Ponder: tree navigation, incremental filter and content formatting

    A shallow embedding of the workspace browser's front end:
    - [components/FileTree.tsx]: [nodeMatchesFilter], [getPathsToExpand],
      the [visibleChildren] memo of [TreeNodeItem], the rows it renders,
      [toggleExpanded] and the auto-expansion memo of [FileTree];
    - [components/FileViewer.tsx]: [getLanguageFromPath] and the line split;
    - [App.tsx]: [handleLoadTree] and [handleFileSelect], whose [await]
      points are modelled as pending tasks settled by later events.

    Strings are Stdlib strings, read as sequences of code units below 256
    that stand for the UTF-16 code units of the same value (ASCII and
    Latin-1): on such text [toLowerCase] is JavaScript's.  Text with other
    code units, where lower-casing can depend on the context (a Greek
    capital sigma) or change the length, is outside the model; the
    theorems on matching are stated over the test the code applies,
    [nameIncludes], and use no property of lower-casing beyond what it
    does to the empty string.
    A JavaScript [Set<string>] is a [gset string]: the code only tests
    membership, adds and deletes. *)

From Stdlib Require Import List Bool Arith ZArith Lia Ascii String.
From stdpp Require Import base decidable option list gmap strings.
Import ListNotations.

Local Open Scope string_scope.
Local Open Scope list_scope.

(** ** JavaScript string primitives *)

Module Js.

(** The lower-case mapping of one code unit below 256: the letters A-Z,
    and the Latin-1 capitals U+00C0-U+00DE except the multiplication sign
    U+00D7, move up by 32; every other unit maps to itself. *)
Definition lower_unit (c : ascii) : ascii :=
  let n := nat_of_ascii c in
  if (65 <=? n)%nat && (n <=? 90)%nat then ascii_of_nat (n + 32)
  else if (192 <=? n)%nat && (n <=? 222)%nat && negb (n =? 215)%nat
       then ascii_of_nat (n + 32)
       else c.

(** [String.prototype.toLowerCase] *)
Fixpoint toLowerCase (s : string) : string :=
  match s with
  | EmptyString => EmptyString
  | String c s' => String (lower_unit c) (toLowerCase s')
  end.

(** [t] is a prefix of [s] *)
Fixpoint startsWith (s t : string) {struct t} : bool :=
  match t, s with
  | EmptyString, _ => true
  | String _ _, EmptyString => false
  | String b t', String a s' => if Ascii.eqb a b then startsWith s' t' else false
  end.

(** [String.prototype.includes]: [t] occurs in [s] at some position *)
Fixpoint includes (s t : string) : bool :=
  startsWith s t ||
  match s with
  | EmptyString => false
  | String _ s' => includes s' t
  end.

(** [String.prototype.split] with a one-character separator: the naive
    split, which always returns at least one segment. *)
Fixpoint split (sep : ascii) (s : string) : list string :=
  match s with
  | EmptyString => [EmptyString]
  | String c s' =>
      if Ascii.eqb c sep then EmptyString :: split sep s'
      else match split sep s' with
           | seg :: segs => String c seg :: segs
           | [] => [String c EmptyString]
           end
  end.

(** [Array.prototype.pop] read as "the last element, if any" *)
Definition pop {A} (l : list A) : option A := List.last (List.map Some l) None.

(** [Array.prototype.join] with a one-character separator *)
Fixpoint join (sep : ascii) (l : list string) : string :=
  match l with
  | [] => EmptyString
  | [x] => x
  | x :: rest => x +:+ String sep (join sep rest)
  end.

(** Truthiness of a string: only the empty string is falsy. *)
Definition truthy (s : string) : bool :=
  match s with EmptyString => false | String _ _ => true end.

(** Truthiness of [string | null]. *)
Definition truthy_opt (o : option string) : bool :=
  match o with Some s => truthy s | None => false end.

(** [a || b] on strings *)
Definition or_else (a b : string) : string := if truthy a then a else b.

Definition LF : ascii := "010"%char.
Definition DOT : ascii := "."%char.

End Js.

(** ** Tree model ([lib/tauri.ts], [interface TreeNode]) *)

Inductive NodeType := file | dir.

#[global] Instance NodeType_eq_dec : EqDecision NodeType.
Proof. solve_decision. Defined.

Unset Elimination Schemes.
Inductive TreeNode : Type := mkTreeNode {
  name : string;
  path : string;
  node_type : NodeType;
  children : option (list TreeNode);   (* [children?: TreeNode[]] *)
  size_bytes : option N;
  is_too_large : option bool
}.
Set Elimination Schemes.

(** The children as a list, the absent field read as no child. *)
Definition childrenOf (n : TreeNode) : list TreeNode :=
  match children n with Some cs => cs | None => [] end.

Section TreeNode_induction.
Variable P : TreeNode -> Prop.
Hypothesis P_leaf : forall nm p k sz big, P (mkTreeNode nm p k None sz big).
Hypothesis P_node : forall nm p k cs sz big,
    Forall P cs -> P (mkTreeNode nm p k (Some cs) sz big).

Fixpoint TreeNode_rose_ind (n : TreeNode) : P n :=
  match n with
  | mkTreeNode nm p k None sz big => P_leaf nm p k sz big
  | mkTreeNode nm p k (Some cs) sz big =>
      P_node nm p k cs sz big
        ((fix all (l : list TreeNode) : Forall P l :=
            match l with
            | [] => @List.Forall_nil TreeNode P
            | c :: l' => @List.Forall_cons TreeNode P c l' (TreeNode_rose_ind c) (all l')
            end) cs)
  end.
End TreeNode_induction.

(** Every node of the tree in pre-order, the node itself first. *)
Fixpoint nodes (n : TreeNode) : list TreeNode :=
  n :: match children n with
       | Some cs => flat_map nodes cs
       | None => []
       end.

(** The nodes strictly below [n]. *)
Definition descendants (n : TreeNode) : list TreeNode :=
  flat_map nodes (childrenOf n).

(** ** Filter engine ([components/FileTree.tsx]) *)

(** [node.name.toLowerCase().includes(filter.toLowerCase())] *)
Definition nameIncludes (n : TreeNode) (filter : string) : bool :=
  Js.includes (Js.toLowerCase (name n)) (Js.toLowerCase filter).

Fixpoint nodeMatchesFilter (node : TreeNode) (filter : string) : bool :=
  if nameIncludes node filter then true
  else match children node with
       | Some cs => existsb (fun child => nodeMatchesFilter child filter) cs
       | None => false
       end.

(** [node.path || parentPath] *)
Definition currentPath (node : TreeNode) (parentPath : string) : string :=
  Js.or_else (path node) parentPath.

(** The [for] loop over [node.children] accumulates into [paths]; the
    recursive call passes [child.path] as the parent path. *)
Fixpoint getPathsToExpand (node : TreeNode) (filter : string) (parentPath : string)
  : gset string :=
  match children node with
  | Some cs =>
      fold_left
        (fun (paths : gset string) child =>
           if nodeMatchesFilter child filter
           then paths ∪ {[ currentPath node parentPath ]}
                      ∪ getPathsToExpand child filter (path child)
           else paths)
        cs ∅
  | None => ∅
  end.

(** The [visibleChildren] memo of [TreeNodeItem]. *)
Definition visibleChildren (node : TreeNode) (searchFilter : string) : list TreeNode :=
  match children node with
  | None => []
  | Some cs =>
      if negb (Js.truthy searchFilter) then cs
      else List.filter (fun child => nodeMatchesFilter child searchFilter) cs
  end.

(** Whether [child] passes the test [visibleChildren] applies to it. *)
Definition survives (searchFilter : string) (child : TreeNode) : bool :=
  negb (Js.truthy searchFilter) || nodeMatchesFilter child searchFilter.

(** The rows [TreeNodeItem] renders, in document order, each with its
    depth.  At depth 0 a directory renders no row of its own, only its
    visible children; elsewhere a node renders its row and, when it is an
    expanded directory with visible children, the rows of those children.
    The recursion goes through [children] with the [visibleChildren] test
    inlined; [TreeNodeItem_visibleChildren] gives the equation over
    [visibleChildren] itself. *)
Fixpoint TreeNodeItem (expandedPaths : gset string) (searchFilter : string)
    (node : TreeNode) (depth : nat) : list (nat * TreeNode) :=
  let isDir := bool_decide (node_type node = dir) in
  let isExpanded := bool_decide (path node ∈ expandedPaths) in
  let below :=
    match children node with
    | Some cs =>
        flat_map (fun child =>
                    if survives searchFilter child
                    then TreeNodeItem expandedPaths searchFilter child (S depth)
                    else []) cs
    | None => []
    end in
  if (depth =? 0)%nat && isDir then below
  else (depth, node) ::
       (if isDir && isExpanded && (0 <? length (visibleChildren node searchFilter))%nat
        then below else []).

(** ** Expansion state ([FileTree]) *)

Definition toggleExpanded (p : string) (prev : gset string) : gset string :=
  if decide (p ∈ prev) then prev ∖ {[ p ]} else prev ∪ {[ p ]}.

(** The body of the [useMemo] on [localSearchFilter, tree]: under the guard
    [localSearchFilter && tree] it merges [getPathsToExpand] into the set. *)
Definition autoExpand (localSearchFilter : string) (tree : option TreeNode)
    (prev : gset string) : gset string :=
  match tree with
  | Some t =>
      if Js.truthy localSearchFilter
      then prev ∪ getPathsToExpand t localSearchFilter ""
      else prev
  | None => prev
  end.

(** ** Sample trees *)

Definition fileNode (nm p : string) : TreeNode :=
  mkTreeNode nm p file None (Some 1%N) (Some false).
Definition dirNode (nm p : string) (cs : list TreeNode) : TreeNode :=
  mkTreeNode nm p dir (Some cs) None None.

Definition sampleTree : TreeNode :=
  dirNode "/" "/" [ dirNode "src" "/src" [ fileNode "a.ts" "/src/a.ts" ];
                    fileNode "readme.md" "/readme.md";
                    fileNode "LICENSE" "/LICENSE" ].

(** ** Content formatter ([components/FileViewer.tsx]) *)

(** What a property read on an object literal can give: one of the
    literal's own strings, or a member inherited from [Object.prototype]
    (a function or an object, never a string). *)
Inductive JsValue :=
| JsString (s : string)
| JsInherited (property : string).

(** The own properties of [languageMap]. *)
Definition languageMap : list (string * string) :=
  [ ("js", "javascript"); ("jsx", "javascript"); ("ts", "typescript");
    ("tsx", "typescript"); ("mjs", "javascript"); ("cjs", "javascript");
    ("html", "html"); ("htm", "html"); ("css", "css"); ("scss", "scss");
    ("less", "less"); ("json", "json"); ("yaml", "yaml"); ("yml", "yaml");
    ("toml", "toml"); ("xml", "xml"); ("rs", "rust"); ("py", "python");
    ("rb", "ruby"); ("go", "go"); ("sh", "shell"); ("bash", "shell");
    ("zsh", "shell"); ("md", "markdown"); ("mdx", "markdown");
    ("gitignore", "gitignore"); ("env", "dotenv") ].

(** The property names every object literal inherits. *)
Definition ObjectPrototype_properties : list string :=
  [ "constructor"; "__defineGetter__"; "__defineSetter__"; "hasOwnProperty";
    "__lookupGetter__"; "__lookupSetter__"; "isPrototypeOf";
    "propertyIsEnumerable"; "toString"; "valueOf"; "__proto__";
    "toLocaleString" ].

Fixpoint ownProperty (key : string) (table : list (string * string)) : option string :=
  match table with
  | [] => None
  | (k, v) :: rest => if String.eqb k key then Some v else ownProperty key rest
  end.

(** [languageMap[extension]]: own properties first, then the prototype. *)
Definition languageMap_get (extension : string) : option JsValue :=
  match ownProperty extension languageMap with
  | Some v => Some (JsString v)
  | None =>
      if existsb (String.eqb extension) ObjectPrototype_properties
      then Some (JsInherited extension)
      else None
  end.

(** [path.split(".").pop()?.toLowerCase() || ""] *)
Definition extensionOf (path : string) : string :=
  Js.or_else
    (match Js.pop (Js.split Js.DOT path) with
     | Some seg => Js.toLowerCase seg
     | None => ""
     end) "".

Definition getLanguageFromPath (path : string) : JsValue :=
  match languageMap_get (extensionOf path) with
  | Some (JsString s) => if Js.truthy s then JsString s else JsString "plaintext"
  | Some (JsInherited k) => JsInherited k
  | None => JsString "plaintext"
  end.

(** Lines 95 and 97 of the viewer: [content?.split("\n") || []] and
    [filePath ? getLanguageFromPath(filePath) : "plaintext"]. *)
Definition linesOf (content : option string) : list string :=
  match content with
  | Some text => Js.split Js.LF text
  | None => []
  end.

Definition languageOf (filePath : option string) : JsValue :=
  match filePath with
  | Some p => if Js.truthy p then getLanguageFromPath p else JsString "plaintext"
  | None => JsString "plaintext"
  end.

Record Formatted := mkFormatted { lines : list string; language : JsValue }.

Definition format (path rawText : string) : Formatted :=
  mkFormatted (linesOf (Some rawText)) (languageOf (Some path)).

(** What [FileViewer] renders.  The content view puts [language] into the
    markup as a child: a string is shown, an inherited function shows
    nothing, and the inherited object [Object.prototype] (the member
    [__proto__]) is not a valid child, so that render throws. *)
Inductive FileView :=
| FileLoadingView
| FileErrorView (message : string)
| FileEmptyView
| FileContentView (shown : Formatted)
| FileRenderError.

Definition renderContent (shown : Formatted) : FileView :=
  match language shown with
  | JsInherited member =>
      if String.eqb member "__proto__" then FileRenderError else FileContentView shown
  | JsString _ => FileContentView shown
  end.

Definition FileViewer (content filePath : option string) (isLoading : bool)
    (error : option string) : FileView :=
  if isLoading then FileLoadingView
  else match error with
       | Some (String c m) => FileErrorView (String c m)
       | _ =>
           if negb (Js.truthy_opt content) && negb (Js.truthy_opt filePath)
           then FileEmptyView
           else renderContent (mkFormatted (linesOf content) (languageOf filePath))
       end.

(** ** Application state ([App.tsx]) and the mounted [FileTree] *)

(** The [useState] cells of [App], then those of [FileTree].  [App] always
    renders one [FileTree] without a [key], so the component stays mounted
    and its cells live as long as [App]'s. *)
Record UiState := mkUi {
  workspacePath : option string;
  tree : option TreeNode;
  treeLoading : bool;
  treeError : option string;
  selectedFilePath : option string;
  fileContent : option string;
  fileLoading : bool;
  fileError : option string;
  searchFilter : string;
  expandedPaths : gset string;
  localSearchFilter : string
}.

Definition initialUi : UiState :=
  mkUi None None false None None None false None "" ∅ "".

(** An asynchronous handler suspended at an [await]. *)
Inductive Task :=
| AwaitListTree (path : string)
| AwaitSaveWorkspacePath (path : string)
| AwaitReadTextFile (root relPath : string).

(** The statements of a handler between two [await]s. *)
Inductive Cmd :=
| SetWorkspacePath (v : option string)
| SetTree (v : option TreeNode)
| SetTreeLoading (v : bool)
| SetTreeError (v : option string)
| SetSelectedFilePath (v : option string)
| SetFileContent (v : option string)
| SetFileLoading (v : bool)
| SetFileError (v : option string)
| SetSearchFilter (v : string)
| SetLocalSearchFilter (v : string)
| SetExpandedPaths (update : gset string -> gset string)
| Await (t : Task).

Definition setState (c : Cmd) (u : UiState) : UiState :=
  let '(mkUi wp tr tl te sel fc fl fe sf ex lf) := u in
  match c with
  | SetWorkspacePath v => mkUi v tr tl te sel fc fl fe sf ex lf
  | SetTree v => mkUi wp v tl te sel fc fl fe sf ex lf
  | SetTreeLoading v => mkUi wp tr v te sel fc fl fe sf ex lf
  | SetTreeError v => mkUi wp tr tl v sel fc fl fe sf ex lf
  | SetSelectedFilePath v => mkUi wp tr tl te v fc fl fe sf ex lf
  | SetFileContent v => mkUi wp tr tl te sel v fl fe sf ex lf
  | SetFileLoading v => mkUi wp tr tl te sel fc v fe sf ex lf
  | SetFileError v => mkUi wp tr tl te sel fc fl v sf ex lf
  | SetSearchFilter v => mkUi wp tr tl te sel fc fl fe v ex lf
  | SetLocalSearchFilter v => mkUi wp tr tl te sel fc fl fe sf ex v
  | SetExpandedPaths f => mkUi wp tr tl te sel fc fl fe sf (f ex) lf
  | Await _ => u
  end.

(** The interface state, the suspended handlers by invocation, and the
    next invocation number. *)
Record World := mkWorld {
  ui : UiState;
  pending : gmap nat Task;
  nextId : nat
}.

Definition initialWorld : World := mkWorld initialUi ∅ 0.

(** Runs the statements of invocation [id] in program order; [Await]
    suspends the invocation on its external call. *)
Fixpoint exec (id : nat) (cmds : list Cmd) (w : World) : World :=
  match cmds with
  | [] => w
  | Await t :: rest => exec id rest (mkWorld (ui w) (<[id := t]> (pending w)) (nextId w))
  | c :: rest => exec id rest (mkWorld (setState c (ui w)) (pending w) (nextId w))
  end.

Inductive Result (A : Type) :=
| Fulfilled (value : A)
| Rejected (message : string).
Arguments Fulfilled {A} value.
Arguments Rejected {A} message.

(** [handleLoadTree(path)] up to and including [await listTree(path)]. *)
Definition handleLoadTree (path : string) : list Cmd :=
  [ SetTreeLoading true; SetTreeError None; SetTree None;
    SetWorkspacePath (Some path); SetSelectedFilePath None;
    SetFileContent None; SetFileError None;
    Await (AwaitListTree path) ].

(** [handleLoadTree] resumed when [listTree(path)] settles. *)
Definition handleLoadTree_listed (path : string) (r : Result TreeNode) : list Cmd :=
  match r with
  | Fulfilled treeData => [ SetTree (Some treeData); Await (AwaitSaveWorkspacePath path) ]
  | Rejected message => [ SetTreeError (Some message); SetTreeLoading false ]
  end.

(** [handleLoadTree] resumed when [saveWorkspacePath(path)] settles. *)
Definition handleLoadTree_saved (r : Result unit) : list Cmd :=
  match r with
  | Fulfilled _ => [ SetTreeLoading false ]
  | Rejected message => [ SetTreeError (Some message); SetTreeLoading false ]
  end.

(** [handleFileSelect(relPath)] up to and including [await readTextFile],
    with the [workspacePath] its closure holds. *)
Definition handleFileSelect (workspacePath : option string) (relPath : string) : list Cmd :=
  match workspacePath with
  | Some (String c root) =>
      [ SetSelectedFilePath (Some relPath); SetFileLoading true;
        SetFileError None; SetFileContent None;
        Await (AwaitReadTextFile (String c root) relPath) ]
  | _ => []
  end.

(** [handleFileSelect] resumed when [readTextFile] settles. *)
Definition handleFileSelect_read (r : Result string) : list Cmd :=
  match r with
  | Fulfilled content => [ SetFileContent (Some content); SetFileLoading false ]
  | Rejected message => [ SetFileError (Some message); SetFileLoading false ]
  end.

(** [handleSearchChange] of [FileTree]; [onSearchChange] is [setSearchFilter]. *)
Definition handleSearchChange (value : string) : list Cmd :=
  [ SetLocalSearchFilter value; SetSearchFilter value ].

(** The render that follows a change of the memo's dependencies
    [localSearchFilter, tree]: the memo's body runs on the new values. *)
Definition rerender (w : World) : World :=
  mkWorld (setState (SetExpandedPaths (autoExpand (localSearchFilter (ui w)) (tree (ui w))))
             (ui w))
          (pending w) (nextId w).

Inductive Event :=
| LoadTree (path : string)
| FileSelect (relPath : string)
| ToggleExpanded (path : string)
| SearchChange (value : string)
| ListTreeSettled (id : nat) (r : Result TreeNode)
| SaveWorkspacePathSettled (id : nat) (r : Result unit)
| ReadTextFileSettled (id : nat) (r : Result string).

(** A handler is called: its statements run as a new invocation. *)
Definition spawn (cmds : list Cmd) (w : World) : World :=
  exec (nextId w) cmds (mkWorld (ui w) (pending w) (S (nextId w))).

(** The external call of invocation [id] has settled: the invocation leaves
    the pending tasks and runs on. *)
Definition resume (id : nat) (cmds : list Cmd) (w : World) : World :=
  exec id cmds (mkWorld (ui w) (delete id (pending w)) (nextId w)).

(** One event of the event loop.  A settlement that finds no task of its
    kind under its invocation number is ignored.  [FileTree]'s memo is
    re-run after the events that change [tree] or [localSearchFilter];
    setting [localSearchFilter] to the value it has changes nothing. *)
Definition step (w : World) (e : Event) : World :=
  match e with
  | LoadTree p => rerender (spawn (handleLoadTree p) w)
  | FileSelect relPath => spawn (handleFileSelect (workspacePath (ui w)) relPath) w
  | ToggleExpanded p => spawn [ SetExpandedPaths (toggleExpanded p) ] w
  | SearchChange value =>
      if String.eqb value (localSearchFilter (ui w))
      then spawn (handleSearchChange value) w
      else rerender (spawn (handleSearchChange value) w)
  | ListTreeSettled id r =>
      match pending w !! id with
      | Some (AwaitListTree p) =>
          let w' := resume id (handleLoadTree_listed p r) w in
          match r with Fulfilled _ => rerender w' | Rejected _ => w' end
      | _ => w
      end
  | SaveWorkspacePathSettled id r =>
      match pending w !! id with
      | Some (AwaitSaveWorkspacePath _) => resume id (handleLoadTree_saved r) w
      | _ => w
      end
  | ReadTextFileSettled id r =>
      match pending w !! id with
      | Some (AwaitReadTextFile _ _) => resume id (handleFileSelect_read r) w
      | _ => w
      end
  end.

Definition run (events : list Event) (w : World) : World := fold_left step events w.

(** What [FileTree] shows. *)
Inductive TreeView :=
| TreeLoadingView
| TreeErrorView (message : string)
| TreeEmptyView
| TreeRowsView (shown : TreeNode) (rows : list (nat * TreeNode)).

Definition FileTree (u : UiState) : TreeView :=
  if treeLoading u then TreeLoadingView
  else match treeError u with
       | Some (String c m) => TreeErrorView (String c m)
       | _ => match tree u with
              | None => TreeEmptyView
              | Some t => TreeRowsView t (TreeNodeItem (expandedPaths u) (localSearchFilter u) t 0)
              end
       end.

(** What [App] hands to [FileViewer]. *)
Definition viewer (u : UiState) : FileView :=
  FileViewer (fileContent u) (selectedFilePath u) (fileLoading u) (fileError u).

(** Two texts that lower-casing makes equal. *)
Definition equalIgnoringCase (a b : string) : Prop :=
  Js.toLowerCase a = Js.toLowerCase b.

(** One pass of the loop body of [getPathsToExpand]. *)
Definition visit (f cur : string) (paths : gset string) (c : TreeNode) : gset string :=
  if nodeMatchesFilter c f
  then paths ∪ {[ cur ]} ∪ getPathsToExpand c f (path c)
  else paths.

(** The data model's conditions on a tree: [children] only on directories,
    paths unique across the tree, the empty path only at the root. *)
Definition kindsConsistent (t : TreeNode) : Prop :=
  Forall (fun n => is_Some (children n) -> node_type n = dir) (nodes t).

Definition uniquePaths (t : TreeNode) : Prop :=
  NoDup (List.map path (nodes t)).

Definition rootOnlyEmptyPath (t : TreeNode) : Prop :=
  Forall (fun n => path n <> "") (descendants t).

Record wellFormed (t : TreeNode) : Prop := mkWellFormed {
  wf_unique : uniquePaths t;
  wf_kinds : kindsConsistent t;
  wf_paths : rootOnlyEmptyPath t
}.

(** [n] has a row in the tree rendered from root [t]. *)
Definition rendered (E : gset string) (f : string) (t n : TreeNode) : Prop :=
  exists depth, In (depth, n) (TreeNodeItem E f t 0).

(** The interface state once the statements of [handleLoadTree] have run. *)
Definition loadingUi (p : string) (u : UiState) : UiState :=
  mkUi (Some p) None true None None None (fileLoading u) None
       (searchFilter u) (expandedPaths u) (localSearchFilter u).

(** ** Further helpers of the front end *)

(** [String.prototype.lastIndexOf] for a one-character needle: the index of
    its last occurrence, or [-1]. *)
Fixpoint lastIndexOf_from (c : ascii) (s : string) (i acc : Z) : Z :=
  match s with
  | EmptyString => acc
  | String a s' => lastIndexOf_from c s' (i + 1)%Z (if Ascii.eqb a c then i else acc)
  end.

Definition lastIndexOf (c : ascii) (s : string) : Z := lastIndexOf_from c s 0%Z (-1)%Z.

Fixpoint dropString (k : nat) (s : string) : string :=
  match k, s with
  | O, _ => s
  | S k', String _ s' => dropString k' s'
  | S _, EmptyString => EmptyString
  end.

(** [String.prototype.slice(start)]: a negative [start] counts from the
    end, and the index is clamped to the string. *)
Definition slice (start : Z) (s : string) : string :=
  let len := Z.of_nat (String.length s) in
  let from := if (start <? 0)%Z then Z.max (len + start) 0 else Z.min start len in
  dropString (Z.to_nat from) s.

(** [getFileExtension] of [lib/tauri.ts]. *)
Definition getFileExtension (filename : string) : string :=
  let lastDot := lastIndexOf Js.DOT filename in
  if (lastDot =? -1)%Z || (lastDot =? 0)%Z then ""
  else Js.toLowerCase (slice (lastDot + 1) filename).

Definition SLASH : ascii := "/"%char.

(** [getFilename] of [components/FileViewer.tsx]:
    [path.split("/").pop() || path]. *)
Definition getFilename (path : string) : string :=
  Js.or_else
    (match Js.pop (Js.split SLASH path) with Some seg => seg | None => "" end)
    path.

(** [displayPath] of [App]; [ellipsis] stands for the literal it prepends. *)
Definition displayPath (ellipsis : string) (workspacePath : option string) : option string :=
  match workspacePath with
  | Some (String c p) =>
      let wp := String c p in
      if (40 <? String.length wp)%nat then Some (ellipsis +:+ slice (-38) wp) else Some wp
  | _ => None
  end.

(** [handleClick] of [TreeNodeItem]: a directory row toggles, a file row
    selects. *)
Definition handleClick (node : TreeNode) : Event :=
  if bool_decide (node_type node = dir) then ToggleExpanded (path node)
  else FileSelect (path node).

(** [handleKeyDown] of [TreeNodeItem]: Enter and Space act as a click. *)
Definition handleKeyDown (key : string) (node : TreeNode) : option Event :=
  if String.eqb key "Enter" || String.eqb key " " then Some (handleClick node) else None.

(** [handleConnectFolder] of [App] once [selectFolder()] has settled: a
    chosen folder is loaded, a cancelled dialog does nothing, a failure of
    the dialog is reported as a tree error. *)
Definition handleConnectFolder_selected (r : Result (option string)) (w : World) : World :=
  match r with
  | Fulfilled (Some (String c p)) => step w (LoadTree (String c p))
  | Fulfilled _ => w
  | Rejected message =>
      spawn [ SetTreeError (Some ("Failed to open folder picker: " +:+ message)) ] w
  end.

(** [loadWorkspacePath] of [lib/tauri.ts] over the outcome of the store
    read: [path ?? null], and [null] when the store fails. *)
Definition loadWorkspacePath (stored : Result (option string)) : option string :=
  match stored with
  | Fulfilled v => v
  | Rejected _ => None
  end.

(** The mount effect of [App]: the remembered root, if any, is loaded. *)
Definition loadLastWorkspace (stored : Result (option string)) (w : World) : World :=
  match loadWorkspacePath stored with
  | Some (String c p) => step w (LoadTree (String c p))
  | _ => w
  end.

(** [n] lies [k] child steps below [t]. *)
Inductive atLevel : TreeNode -> nat -> TreeNode -> Prop :=
| atLevel_here t : atLevel t 0 t
| atLevel_below t c k n :
    In c (childrenOf t) -> atLevel c k n -> atLevel t (S k) n.

(** Occurrences of a character in a string. *)
Fixpoint countChar (c : ascii) (s : string) : nat :=
  match s with
  | EmptyString => 0
  | String a s' => (if Ascii.eqb a c then 1 else 0) + countChar c s'
  end.

(** [n] is shown [k] levels below [t] when [t] is rendered open: a chain
    of visible children leads from [t] to [n], through expanded directories
    only. *)
Inductive revealed (E : gset string) (f : string) : TreeNode -> nat -> TreeNode -> Prop :=
| revealed_child t c :
    node_type t = dir -> In c (visibleChildren t f) -> revealed E f t 1 c
| revealed_deeper t c k n :
    node_type t = dir -> In c (visibleChildren t f) ->
    path c ∈ E -> revealed E f c k n -> revealed E f t (S k) n.

(** The events of [App] as a whole: those of [step], the settlement of the
    folder dialog opened by [handleConnectFolder], and the settlement of the
    store read of the mount effect. *)
Inductive AppEvent :=
| Ui (e : Event)
| FolderSelected (r : Result (option string))
| WorkspacePathLoaded (r : Result (option string)).

Definition appStep (w : World) (e : AppEvent) : World :=
  match e with
  | Ui e => step w e
  | FolderSelected r => handleConnectFolder_selected r w
  | WorkspacePathLoaded r => loadLastWorkspace r w
  end.

Definition appRun (events : list AppEvent) (w : World) : World :=
  fold_left appStep events w.

(** Before a workspace is connected nothing is held, selected or loading,
    no listing, save or read is pending, and the only tree error there can
    be is that of a failed folder dialog. *)
Definition idleUntilConnected (w : World) : Prop :=
  workspacePath (ui w) = None ->
  pending w = ∅ /\ tree (ui w) = None /\ treeLoading (ui w) = false /\
  (treeError (ui w) = None \/
   exists message,
     treeError (ui w) = Some ("Failed to open folder picker: " +:+ message)) /\
  selectedFilePath (ui w) = None /\
  fileContent (ui w) = None /\ fileLoading (ui w) = false /\ fileError (ui w) = None.



(** ** Scenarios *)

(** A tree whose root carries a name of its own. *)
Definition namedRoot : TreeNode :=
  dirNode "app" "/" [ fileNode "main.ts" "/main.ts" ].

(** A directory is expanded under one root, then another root is loaded. *)
Definition expandThenReload : list Event :=
  [ LoadTree "/a"; ListTreeSettled 0 (Fulfilled sampleTree);
    SaveWorkspacePathSettled 0 (Fulfilled tt);
    ToggleExpanded "/src"; LoadTree "/b" ].

(** Two roots loaded one after the other, the first listing arriving last. *)
Definition alphaTree : TreeNode :=
  dirNode "a" "" [ fileNode "x.rs" "x.rs"; fileNode "y.py" "y.py" ].


(** Two files selected one after the other, the first read arriving last. *)
Definition staleRead : list Event :=
  [ LoadTree "/a"; ListTreeSettled 0 (Fulfilled alphaTree);
    SaveWorkspacePathSettled 0 (Fulfilled tt);
    FileSelect "x.rs"; FileSelect "y.py";
    ReadTextFileSettled 2 (Fulfilled "text of y");
    ReadTextFileSettled 1 (Fulfilled "text of x") ].

(** * Properties *)

(** Reduce the projections of [World] and [UiState] only, leaving the maps
    of pending tasks and the expansion sets as they are. *)
Ltac world_proj := cbn [ui pending nextId].
Ltac ui_proj :=
  cbn [ui setState loadingUi FileTree workspacePath tree treeLoading treeError
       selectedFilePath fileContent fileLoading fileError searchFilter
       expandedPaths localSearchFilter].

(** Unfold one event on a world given by its fields, leaving the task map
    and the sets alone. *)
Ltac world_step :=
  cbn [run fold_left step spawn resume rerender exec setState ui pending nextId
       handleLoadTree handleLoadTree_listed handleLoadTree_saved handleFileSelect
       handleFileSelect_read handleSearchChange handleClick
       workspacePath tree treeLoading treeError selectedFilePath fileContent
       fileLoading fileError searchFilter expandedPaths localSearchFilter].

(** Decides a closed, decidable side condition by evaluation. *)
Ltac by_evaluation := apply (bool_decide_unpack _); vm_compute; exact I.


(** ** Strings *)

Section StringFacts.

Lemma startsWith_spec s t :
  Js.startsWith s t = true <-> exists post, s = t +:+ post.
Proof.
  revert s; induction t as [|b t IH]; intros s; simpl.
  - split; [intros _; exists s; reflexivity | reflexivity].
  - destruct s as [|a s]; simpl.
    + split; [discriminate | intros [post H]; discriminate].
    + destruct (Ascii.eqb_spec a b) as [->|Hne].
      * rewrite IH. split; intros [post H]; exists post.
        -- now rewrite H.
        -- now injection H.
      * split; [discriminate | intros [post H]; injection H; congruence].
Qed.

Lemma includes_spec s t :
  Js.includes s t = true <-> exists pre post, s = pre +:+ t +:+ post.
Proof.
  induction s as [|a s IH]; simpl.
  - rewrite orb_false_r, startsWith_spec. split.
    + intros [post H]. exists "", post. exact H.
    + intros [pre [post H]]. destruct pre; [exists post; exact H|discriminate].
  - rewrite orb_true_iff, IH, startsWith_spec. split.
    + intros [[post H]|[pre [post H]]].
      * exists "", post. exact H.
      * exists (String a pre), post. simpl. now rewrite H.
    + intros [pre [post H]]. destruct pre as [|c pre]; simpl in H.
      * left. exists post. exact H.
      * right. exists pre, post. now injection H.
Qed.

Lemma includes_empty s : Js.includes s "" = true.
Proof. destruct s; reflexivity. Qed.

Lemma or_else_self s : Js.or_else s s = s.
Proof. unfold Js.or_else. now destruct (Js.truthy s). Qed.

Lemma or_else_empty s : Js.or_else s "" = s.
Proof. unfold Js.or_else. now destruct s. Qed.

End StringFacts.

Lemma nameIncludes_empty n : nameIncludes n "" = true.
Proof. unfold nameIncludes. simpl. apply includes_empty. Qed.

(** ** The tree and the filter engine *)

Section FilterEngine.

Implicit Types (n t d c : TreeNode) (f : string) (E : gset string).

Lemma nodes_eq n : nodes n = n :: descendants n.
Proof. destruct n as [nm p k [cs|] sz big]; reflexivity. Qed.

Lemma nodes_self n : In n (nodes n).
Proof. rewrite nodes_eq. now left. Qed.

Lemma descendants_iff n d :
  In d (descendants n) <-> exists c, In c (childrenOf n) /\ In d (nodes c).
Proof. unfold descendants. apply List.in_flat_map. Qed.

Lemma nodes_child n c d : In c (childrenOf n) -> In d (nodes c) -> In d (nodes n).
Proof. intros Hc Hd. rewrite nodes_eq. right. apply descendants_iff. eauto. Qed.

Lemma descendants_nodes n d : In d (descendants n) -> In d (nodes n).
Proof. rewrite nodes_eq. now right. Qed.

Lemma nodes_trans n : forall d e, In d (nodes n) -> In e (nodes d) -> In e (nodes n).
Proof.
  induction n as [nm p k sz big | nm p k cs sz big IH] using TreeNode_rose_ind; intros d e Hd He.
  - destruct Hd as [<-|[]]. exact He.
  - rewrite nodes_eq in Hd. destruct Hd as [<-|Hd]; [exact He|].
    apply descendants_iff in Hd. destruct Hd as (c & Hc & Hd).
    rewrite List.Forall_forall in IH.
    eapply nodes_child; [exact Hc|]. eapply IH; eauto.
Qed.

Lemma nodeMatchesFilter_eq n f :
  nodeMatchesFilter n f =
  nameIncludes n f || existsb (fun c => nodeMatchesFilter c f) (childrenOf n).
Proof.
  destruct n as [nm p k [cs|] sz big]; unfold childrenOf; simpl;
    destruct (nameIncludes _ f); reflexivity.
Qed.

(** A node matches exactly when its own name or the name of a node below
    it contains the filter text. *)
Lemma nodeMatchesFilter_nodes n f :
  nodeMatchesFilter n f = true <-> exists d, In d (nodes n) /\ nameIncludes d f = true.
Proof.
  induction n as [nm p k sz big | nm p k cs sz big IH] using TreeNode_rose_ind;
    rewrite nodeMatchesFilter_eq, orb_true_iff, nodes_eq.
  - unfold descendants, childrenOf; simpl. split.
    + intros [H|H]; [eauto|discriminate].
    + intros (d & [<-|[]] & H). now left.
  - rewrite List.existsb_exists. rewrite List.Forall_forall in IH. split.
    + intros [H|(c & Hc & H)].
      * exists (mkTreeNode nm p k (Some cs) sz big). split; [now left|exact H].
      * apply IH in H; [|exact Hc]. destruct H as (d & Hd & H).
        exists d. split; [right; apply descendants_iff; eauto|exact H].
    + intros (d & [<-|Hd] & H); [now left|right].
      apply descendants_iff in Hd. destruct Hd as (c & Hc & Hd).
      exists c. split; [exact Hc|]. apply IH; eauto.
Qed.

Lemma nodeMatchesFilter_descendant n d f :
  In d (nodes n) -> nodeMatchesFilter d f = true -> nodeMatchesFilter n f = true.
Proof.
  intros Hd Hm. apply nodeMatchesFilter_nodes in Hm. destruct Hm as (e & He & Hm).
  apply nodeMatchesFilter_nodes. exists e. split; [|exact Hm].
  eapply nodes_trans; eauto.
Qed.

Lemma nodeMatchesFilter_empty n : nodeMatchesFilter n "" = true.
Proof. rewrite nodeMatchesFilter_eq, nameIncludes_empty. reflexivity. Qed.

(** *** [getPathsToExpand] *)

Lemma currentPath_root n : currentPath n "" = path n.
Proof. apply or_else_empty. Qed.

Lemma currentPath_own n : currentPath n (path n) = path n.
Proof. apply or_else_self. Qed.

Lemma getPathsToExpand_eq n f parentPath :
  getPathsToExpand n f parentPath =
  fold_left (visit f (currentPath n parentPath)) (childrenOf n) ∅.
Proof. destruct n as [nm p k [cs|] sz big]; reflexivity. Qed.

Lemma fold_visit f cur cs : forall (acc : gset string) (p : string),
  p ∈ fold_left (visit f cur) cs acc <->
  p ∈ acc \/ exists c, In c cs /\ nodeMatchesFilter c f = true /\
                       (p = cur \/ p ∈ getPathsToExpand c f (path c)).
Proof.
  induction cs as [|c cs IH]; intros acc p; simpl.
  - split; [auto | intros [H|(c & [] & _)]; exact H].
  - rewrite IH. unfold visit.
    destruct (nodeMatchesFilter c f) eqn:Hm.
    + rewrite !elem_of_union, elem_of_singleton. split.
      * intros [[[H|H]|H]|(c' & Hc' & H)]; eauto 8.
      * intros [H|(c' & [<-|Hc'] & Hm' & H)]; eauto 8.
        destruct H; auto.
    + split.
      * intros [H|(c' & Hc' & H)]; eauto 8.
      * intros [H|(c' & [<-|Hc'] & Hm' & H)]; eauto 8. congruence.
Qed.

Lemma getPathsToExpand_elem n f parentPath p :
  p ∈ getPathsToExpand n f parentPath <->
  exists c, In c (childrenOf n) /\ nodeMatchesFilter c f = true /\
            (p = currentPath n parentPath \/ p ∈ getPathsToExpand c f (path c)).
Proof.
  rewrite getPathsToExpand_eq, fold_visit. split; [|auto].
  intros [H|H]; [|exact H]. now apply not_elem_of_empty in H.
Qed.

(** The parent path only matters through [node.path || parentPath], which
    is the node's own path both at the root call and at the recursive ones. *)
Lemma getPathsToExpand_root n f :
  getPathsToExpand n f "" = getPathsToExpand n f (path n).
Proof. now rewrite !getPathsToExpand_eq, currentPath_root, currentPath_own. Qed.

Lemma getPathsToExpand_own t f parentPath c :
  In c (childrenOf t) -> nodeMatchesFilter c f = true ->
  currentPath t parentPath ∈ getPathsToExpand t f parentPath.
Proof. intros Hc Hm. apply getPathsToExpand_elem. eauto. Qed.

Lemma getPathsToExpand_child t f parentPath c :
  In c (childrenOf t) -> nodeMatchesFilter c f = true ->
  getPathsToExpand c f (path c) ⊆ getPathsToExpand t f parentPath.
Proof. intros Hc Hm p Hp. apply getPathsToExpand_elem. eauto. Qed.

(** Every collected path is the path of a node with a matching child. *)
Lemma getPathsToExpand_source t f p :
  p ∈ getPathsToExpand t f (path t) ->
  exists d c, In d (nodes t) /\ path d = p /\
              In c (childrenOf d) /\ nodeMatchesFilter c f = true.
Proof.
  induction t as [nm pt k sz big | nm pt k cs sz big IH] using TreeNode_rose_ind;
    intros Hp; apply getPathsToExpand_elem in Hp;
    destruct Hp as (c & Hc & Hm & Hp); [destruct Hc|].
  rewrite currentPath_own in Hp. destruct Hp as [->|Hp].
  - eexists _, c. split; [apply nodes_self|]. auto.
  - rewrite List.Forall_forall in IH.
    destruct (IH c Hc Hp) as (d & c' & Hd & Hpd & Hc' & Hm').
    exists d, c'. split; [|auto]. eapply nodes_child; eauto.
Qed.

(** With the empty filter every node matches, so the walk visits the whole
    tree and collects every node that has a child. *)
Lemma getPathsToExpand_empty_filter t p :
  p ∈ getPathsToExpand t "" (path t) <->
  exists d c, In d (nodes t) /\ In c (childrenOf d) /\ path d = p.
Proof.
  induction t as [nm pt k sz big | nm pt k cs sz big IH] using TreeNode_rose_ind;
    rewrite getPathsToExpand_elem.
  - split.
    + intros (c & [] & _).
    + intros (d & c & [<-|[]] & [] & _).
  - rewrite List.Forall_forall in IH. rewrite currentPath_own. split.
    + intros (c & Hc & _ & [->|Hp]).
      * eexists _, c. split; [apply nodes_self|]. auto.
      * apply IH in Hp; [|exact Hc]. destruct Hp as (d & c' & Hd & Hc' & Hp).
        exists d, c'. split; [|auto]. eapply nodes_child; eauto.
    + intros (d & c & Hd & Hc & Hp). rewrite nodes_eq in Hd.
      destruct Hd as [<-|Hd].
      * exists c. split; [exact Hc|]. split; [apply nodeMatchesFilter_empty|].
        left. now rewrite <- Hp.
      * apply descendants_iff in Hd. destruct Hd as (c0 & Hc0 & Hd).
        exists c0. split; [exact Hc0|]. split; [apply nodeMatchesFilter_empty|].
        right. apply IH; eauto.
Qed.

End FilterEngine.

(** ** Rendering *)

Section Rendering.

Implicit Types (n t d c : TreeNode) (f : string) (E : gset string).

Lemma flat_map_if {A B} (g : A -> bool) (h : A -> list B) (l : list A) :
  flat_map (fun a => if g a then h a else []) l = flat_map h (List.filter g l).
Proof.
  induction l as [|a l IH]; simpl; [reflexivity|].
  destruct (g a); simpl; now rewrite IH.
Qed.

Lemma visibleChildren_survives n f :
  visibleChildren n f = List.filter (survives f) (childrenOf n).
Proof.
  unfold visibleChildren, childrenOf, survives.
  destruct (children n) as [cs|]; [|reflexivity].
  destruct (Js.truthy f); simpl; [reflexivity|].
  induction cs as [|c cs IH]; simpl; congruence.
Qed.

Lemma visibleChildren_In n f c :
  In c (visibleChildren n f) <-> In c (childrenOf n) /\ survives f c = true.
Proof. rewrite visibleChildren_survives. apply List.filter_In. Qed.

(** The equation of [TreeNodeItem] as the component is written: both
    [map]s run over [visibleChildren]. *)
Lemma TreeNodeItem_visibleChildren E f n depth :
  TreeNodeItem E f n depth =
  let isDir := bool_decide (node_type n = dir) in
  let isExpanded := bool_decide (path n ∈ E) in
  let below :=
    flat_map (fun child => TreeNodeItem E f child (S depth)) (visibleChildren n f) in
  if (depth =? 0)%nat && isDir then below
  else (depth, n) ::
       (if isDir && isExpanded && (0 <? length (visibleChildren n f))%nat
        then below else []).
Proof.
  assert (Hbelow :
    match children n with
    | Some cs =>
        flat_map (fun child => if survives f child
                               then TreeNodeItem E f child (S depth) else []) cs
    | None => []
    end =
    flat_map (fun child => TreeNodeItem E f child (S depth)) (visibleChildren n f)).
  { rewrite visibleChildren_survives, <- flat_map_if. unfold childrenOf.
    now destruct (children n). }
  cbn zeta. rewrite <- Hbelow.
  destruct n as [nm p k [cs|] sz big]; reflexivity.
Qed.

Lemma survives_matching f c : nodeMatchesFilter c f = true -> survives f c = true.
Proof. unfold survives. intros ->. apply orb_true_r. Qed.

(** Once the collected paths are expanded, every matching node has a row,
    except a directory rendered at depth 0, which never has one. *)
Lemma matching_node_rendered f E n : forall t depth,
  kindsConsistent t ->
  getPathsToExpand t f (path t) ⊆ E ->
  In n (nodes t) ->
  nodeMatchesFilter n f = true ->
  (n = t -> depth = 0%nat -> node_type t = file) ->
  exists k, In (k, n) (TreeNodeItem E f t depth).
Proof.
  induction t as [nm p k sz big | nm p k cs sz big IH] using TreeNode_rose_ind;
    intros depth Hk HE Hn Hm Hrow.
  - destruct Hn as [<-|[]]. exists depth.
    rewrite TreeNodeItem_visibleChildren. cbn zeta.
    destruct ((depth =? 0)%nat && _) eqn:Hd; [|now left].
    apply andb_true_iff in Hd. destruct Hd as [Hd Hdir].
    apply Nat.eqb_eq in Hd. apply bool_decide_eq_true in Hdir.
    specialize (Hrow eq_refl Hd). simpl in *. congruence.
  - set (t := mkTreeNode nm p k (Some cs) sz big) in *.
    assert (Hdir : node_type t = dir).
    { unfold kindsConsistent in Hk. rewrite List.Forall_forall in Hk.
      apply (Hk t (nodes_self t)). now exists cs. }
    rewrite nodes_eq in Hn. destruct Hn as [<-|Hn].
    + exists depth. rewrite TreeNodeItem_visibleChildren. cbn zeta.
      destruct ((depth =? 0)%nat && _) eqn:Hd; [|now left].
      apply andb_true_iff in Hd. destruct Hd as [Hd _].
      apply Nat.eqb_eq in Hd. specialize (Hrow eq_refl Hd). congruence.
    + apply descendants_iff in Hn. destruct Hn as (c & Hc & Hn).
      assert (Hmc : nodeMatchesFilter c f = true)
        by (eapply nodeMatchesFilter_descendant; eauto).
      rewrite List.Forall_forall in IH.
      destruct (IH c Hc (S depth)) as (j & Hj).
      * unfold kindsConsistent in *. rewrite List.Forall_forall in *.
        intros x Hx. apply Hk. eapply nodes_child; eauto.
      * etransitivity; [|exact HE]. now apply getPathsToExpand_child.
      * exact Hn.
      * exact Hm.
      * discriminate.
      * assert (Hvis : In c (visibleChildren t f)).
        { apply visibleChildren_In. split; [exact Hc|now apply survives_matching]. }
        assert (Hbelow : In (j, n)
                  (flat_map (fun child => TreeNodeItem E f child (S depth))
                            (visibleChildren t f))).
        { apply List.in_flat_map. eauto. }
        exists j. rewrite TreeNodeItem_visibleChildren. cbn zeta.
        rewrite (bool_decide_eq_true_2 _ Hdir).
        destruct (depth =? 0)%nat; simpl; [exact Hbelow|]. right.
        assert (Hexp : path t ∈ E).
        { apply HE. rewrite <- (currentPath_own t) at 1.
          eapply getPathsToExpand_own; eauto. }
        rewrite (bool_decide_eq_true_2 _ Hexp). simpl.
        destruct (visibleChildren t f) as [|v vs]; [destruct Hvis|]. exact Hbelow.
Qed.

End Rendering.

(** ** Well-formed trees *)

Section WellFormed.

Implicit Types (n t d c : TreeNode) (f : string) (E : gset string).

Lemma NoDup_map_In_inj {A B} (g : A -> B) (l : list A) x y :
  NoDup (List.map g l) -> In x l -> In y l -> g x = g y -> x = y.
Proof.
  induction l as [|a l IH]; simpl; intros Hnd Hx Hy Hg; [destruct Hx|].
  apply NoDup_cons in Hnd. destruct Hnd as [Hna Hnd].
  rewrite list_elem_of_In in Hna.
  destruct Hx as [<-|Hx], Hy as [<-|Hy]; auto.
  - exfalso. apply Hna. rewrite Hg. now apply List.in_map.
  - exfalso. apply Hna. rewrite <- Hg. now apply List.in_map.
Qed.

Lemma uniquePaths_inj t d d' :
  uniquePaths t -> In d (nodes t) -> In d' (nodes t) -> path d = path d' -> d = d'.
Proof. apply NoDup_map_In_inj. Qed.

Lemma kindsConsistent_dir t d c :
  kindsConsistent t -> In d (nodes t) -> In c (childrenOf d) -> node_type d = dir.
Proof.
  unfold kindsConsistent. rewrite List.Forall_forall. intros Hk Hd Hc.
  apply Hk; [exact Hd|]. unfold childrenOf in Hc.
  destruct (children d) as [cs|]; [now exists cs|destruct Hc].
Qed.

(** Under the data model a collected path belongs to one node only, a
    directory with a matching child. *)
Lemma getPathsToExpand_only_directories t f d :
  kindsConsistent t -> uniquePaths t -> In d (nodes t) ->
  path d ∈ getPathsToExpand t f "" ->
  node_type d = dir /\
  exists c, In c (childrenOf d) /\ nodeMatchesFilter c f = true.
Proof.
  intros Hk Hu Hd Hp. rewrite getPathsToExpand_root in Hp.
  apply getPathsToExpand_source in Hp.
  destruct Hp as (d' & c & Hd' & Hpath & Hc & Hm).
  assert (d' = d) as -> by (eapply uniquePaths_inj; eauto).
  split; [eapply kindsConsistent_dir; eauto|eauto].
Qed.

End WellFormed.

(** ** The filter engine's contracts *)

(** C7. With the empty filter [visibleChildren] is the node's children as
    they are; with a non-empty filter it is the children that match, each as
    often and in the order it occurs among the children. *)
Theorem visibleChildren_spec (node : TreeNode) :
  visibleChildren node "" = childrenOf node /\
  (forall a rest,
     let filterText := String a rest in
     visibleChildren node filterText =
       List.filter (fun child => nodeMatchesFilter child filterText) (childrenOf node) /\
     (forall child, In child (visibleChildren node filterText) <->
                    In child (childrenOf node) /\ nodeMatchesFilter child filterText = true) /\
     visibleChildren node filterText `sublist_of` childrenOf node).
Proof.
  split.
  - unfold visibleChildren, childrenOf. now destruct (children node).
  - intros a rest filterText.
    assert (Heq : visibleChildren node filterText =
                  List.filter (fun child => nodeMatchesFilter child filterText)
                              (childrenOf node)).
    { unfold visibleChildren, childrenOf. now destruct (children node). }
    split; [exact Heq|]. rewrite Heq. split.
    + intros child. apply List.filter_In.
    + clear Heq. induction (childrenOf node) as [|c cs IH]; simpl; [constructor|].
      destruct (nodeMatchesFilter c filterText); [apply sublist_skip|apply sublist_cons]; exact IH.
Qed.

(** C9. Toggling the same path twice gives back the expansion set, both
    for the update function and for two clicks on a row. *)
Theorem toggleExpanded_involutive (prev : gset string) (p : string) :
  toggleExpanded p (toggleExpanded p prev) = prev /\
  (forall q, q ∈ toggleExpanded p (toggleExpanded p prev) <-> q ∈ prev) /\
  (forall w, expandedPaths (ui (run [ToggleExpanded p; ToggleExpanded p] w)) =
             expandedPaths (ui w)).
Proof.
  assert (Hinv : forall E : gset string, toggleExpanded p (toggleExpanded p E) = E).
  { intros E. apply set_eq. intros q. unfold toggleExpanded.
    destruct (decide (p ∈ E)) as [Hin|Hout].
    - rewrite decide_False.
      + rewrite elem_of_union, elem_of_difference, elem_of_singleton.
        destruct (decide (q = p)) as [->|Hne]; tauto.
      + rewrite elem_of_difference, elem_of_singleton. tauto.
    - rewrite decide_True.
      + rewrite elem_of_difference, elem_of_union, elem_of_singleton.
        destruct (decide (q = p)) as [->|Hne]; tauto.
      + rewrite elem_of_union, elem_of_singleton. tauto. }
  split; [apply Hinv|]. split.
  - intros q. now rewrite Hinv.
  - intros [u pend nxt]. destruct u. simpl. apply Hinv.
Qed.

(** C3, as the code has it. The auto-expansion memo is guarded by
    [localSearchFilter && tree], so with the empty filter it adds nothing to
    the expansion set, whatever the tree, and clearing the search box leaves
    the set alone; [getPathsToExpand] itself, called with the empty filter,
    returns the path of every node that has at least one child. *)
Theorem autoExpand_empty_filter (t : TreeNode) :
  (forall tree prev, autoExpand "" tree prev = prev) /\
  (forall w, expandedPaths (ui (step w (SearchChange ""))) = expandedPaths (ui w)) /\
  (forall p, p ∈ getPathsToExpand t "" "" <->
             exists d c, In d (nodes t) /\ In c (childrenOf d) /\ path d = p).
Proof.
  split; [|split].
  - intros [tr|] prev; reflexivity.
  - intros [u pend nxt]. destruct u as [wp tr tl te sel fc fl fe sf ex lf].
    simpl. destruct lf; simpl; [reflexivity|].
    now destruct tr.
  - intros p. rewrite getPathsToExpand_root. apply getPathsToExpand_empty_filter.
Qed.

(** C3 as stated fails on the function: on the sample tree the empty filter
    collects the root and [/src]. *)
Lemma getPathsToExpand_empty_filter_nonempty :
  "/" ∈ getPathsToExpand sampleTree "" "" /\
  "/src" ∈ getPathsToExpand sampleTree "" "" /\
  getPathsToExpand sampleTree "" "" <> ∅.
Proof.
  assert (H1 : "/" ∈ getPathsToExpand sampleTree "" "").
  { apply (getPathsToExpand_own sampleTree "" "" (fileNode "readme.md" "/readme.md")).
    - simpl. auto.
    - reflexivity. }
  split; [exact H1|]. split.
  - apply getPathsToExpand_elem.
    exists (dirNode "src" "/src" [fileNode "a.ts" "/src/a.ts"]).
    split; [simpl; auto|]. split; [reflexivity|]. right.
    exact (getPathsToExpand_own (dirNode "src" "/src" [fileNode "a.ts" "/src/a.ts"])
             "" "/src" (fileNode "a.ts" "/src/a.ts") (or_introl eq_refl) eq_refl).
  - intros Heq. rewrite Heq in H1. now apply not_elem_of_empty in H1.
Qed.

(** C5, as the code has it. On a tree of the data model (children on
    directories only, paths unique), with [E] the paths collected for the
    filter and "matching" read as the test the code applies to a name
    ([nameIncludes]: the lower-cased name includes the lower-cased filter):
    every file whose name matches has a row once exactly [E] is expanded;
    every node whose path is in [E] is a directory with a descendant whose
    name matches; and the root's path is in [E] as soon as a node below the
    root has a matching name. *)
Theorem getPathsToExpand_reveals (T : TreeNode) (F : string) :
  kindsConsistent T -> uniquePaths T ->
  (forall n, In n (nodes T) -> node_type n = file -> nameIncludes n F = true ->
             rendered (getPathsToExpand T F "") F T n) /\
  (forall d, In d (nodes T) -> path d ∈ getPathsToExpand T F "" ->
             node_type d = dir /\
             exists m, In m (descendants d) /\ nameIncludes m F = true) /\
  ((exists m, In m (descendants T) /\ nameIncludes m F = true) ->
   path T ∈ getPathsToExpand T F "").
Proof.
  intros Hk Hu. split; [|split].
  - intros n Hn Hfile Hname. unfold rendered.
    apply matching_node_rendered; auto.
    + now rewrite getPathsToExpand_root.
    + apply nodeMatchesFilter_nodes. exists n. split; [apply nodes_self|exact Hname].
    + now intros <- _.
  - intros d Hd Hp.
    destruct (getPathsToExpand_only_directories T F d Hk Hu Hd Hp)
      as (Hdir & c & Hc & Hm).
    split; [exact Hdir|].
    apply nodeMatchesFilter_nodes in Hm. destruct Hm as (m & Hm & Hname).
    exists m. split; [apply descendants_iff; eauto|exact Hname].
  - intros (m & Hm & Hname). apply descendants_iff in Hm.
    destruct Hm as (c & Hc & Hm). rewrite <- (currentPath_root T) at 1.
    apply (getPathsToExpand_own T F "" c Hc).
    apply nodeMatchesFilter_nodes. exists m. split; [exact Hm|exact Hname].
Qed.

(** C10. On a well-formed tree every collected path is the path of a
    directory of the tree, no file of the tree has its path collected, and
    the auto-expansion puts no file's path into the expansion set that was
    not there before. *)
Theorem getPathsToExpand_directories (t : TreeNode) (filter : string) :
  wellFormed t ->
  (forall p, p ∈ getPathsToExpand t filter "" ->
             exists d, In d (nodes t) /\ node_type d = dir /\ path d = p) /\
  (forall n, In n (nodes t) -> node_type n = file ->
             path n ∉ getPathsToExpand t filter "") /\
  (forall n prev, In n (nodes t) -> node_type n = file ->
                  path n ∈ autoExpand filter (Some t) prev -> path n ∈ prev).
Proof.
  intros [Hu Hk _].
  assert (Hfile : forall n, In n (nodes t) -> node_type n = file ->
                            path n ∉ getPathsToExpand t filter "").
  { intros n Hn Hf Hp.
    destruct (getPathsToExpand_only_directories t filter n Hk Hu Hn Hp) as [Hd _].
    congruence. }
  split; [|split].
  - intros p Hp. rewrite getPathsToExpand_root in Hp.
    apply getPathsToExpand_source in Hp.
    destruct Hp as (d & c & Hd & Hpath & Hc & _).
    exists d. split; [exact Hd|]. split; [|exact Hpath].
    eapply kindsConsistent_dir; eauto.
  - exact Hfile.
  - intros n prev Hn Hf. unfold autoExpand.
    destruct (Js.truthy filter); [|auto].
    rewrite elem_of_union. intros [Hp|Hp]; [exact Hp|].
    now apply Hfile in Hp.
Qed.

(** ** The application's handlers *)

Section Handlers.

Implicit Types (w : World) (u : UiState).

Lemma step_LoadTree w p :
  step w (LoadTree p) =
  mkWorld (loadingUi p (ui w)) (<[nextId w := AwaitListTree p]> (pending w))
          (S (nextId w)).
Proof. destruct w as [[wp tr tl te sel fc fl fe sf ex lf] pend nxt]. reflexivity. Qed.

Lemma step_ListTreeSettled_fulfilled w id p t :
  pending w !! id = Some (AwaitListTree p) ->
  step w (ListTreeSettled id (Fulfilled t)) =
  mkWorld (setState (SetExpandedPaths (autoExpand (localSearchFilter (ui w)) (Some t)))
             (setState (SetTree (Some t)) (ui w)))
          (<[id := AwaitSaveWorkspacePath p]> (delete id (pending w)))
          (nextId w).
Proof.
  intros Hp. destruct w as [[wp tr tl te sel fc fl fe sf ex lf] pend nxt].
  simpl in *. rewrite Hp. reflexivity.
Qed.

Lemma step_SaveWorkspacePathSettled_fulfilled w id p :
  pending w !! id = Some (AwaitSaveWorkspacePath p) ->
  step w (SaveWorkspacePathSettled id (Fulfilled tt)) =
  mkWorld (setState (SetTreeLoading false) (ui w)) (delete id (pending w)) (nextId w).
Proof.
  intros Hp. destruct w as [[wp tr tl te sel fc fl fe sf ex lf] pend nxt].
  simpl in *. rewrite Hp. reflexivity.
Qed.

Lemma step_FileSelect w c root relPath :
  workspacePath (ui w) = Some (String c root) ->
  step w (FileSelect relPath) =
  mkWorld (setState (SetFileContent None)
             (setState (SetFileError None)
                (setState (SetFileLoading true)
                   (setState (SetSelectedFilePath (Some relPath)) (ui w)))))
          (<[nextId w := AwaitReadTextFile (String c root) relPath]> (pending w))
          (S (nextId w)).
Proof.
  intros Hp. destruct w as [[wp tr tl te sel fc fl fe sf ex lf] pend nxt].
  simpl in *. subst wp. reflexivity.
Qed.

Lemma step_ReadTextFileSettled_fulfilled w id root relPath content :
  pending w !! id = Some (AwaitReadTextFile root relPath) ->
  step w (ReadTextFileSettled id (Fulfilled content)) =
  mkWorld (setState (SetFileLoading false)
             (setState (SetFileContent (Some content)) (ui w)))
          (delete id (pending w)) (nextId w).
Proof.
  intros Hp. destruct w as [[wp tr tl te sel fc fl fe sf ex lf] pend nxt].
  simpl in *. rewrite Hp. reflexivity.
Qed.

End Handlers.

(** C1, as the code has it. In whatever state the application is,
    [handleLoadTree(path)] runs its resets before it issues the listing
    call: when the call is issued the selection is none, the cached file
    content and file error are cleared and no tree is held.  The expansion
    set belongs to the mounted [FileTree] and no statement of the handler
    touches it: it is the same set as before the call. *)
Theorem handleLoadTree_resets (w : World) (p : string) :
  exists resets,
    handleLoadTree p = resets ++ [Await (AwaitListTree p)] /\
    Forall (fun c => forall t, c <> Await t) resets /\
    pending (exec (nextId w) resets w) = pending w /\
    ui (exec (nextId w) resets w) = ui (step w (LoadTree p)) /\
    pending (step w (LoadTree p)) !! nextId w = Some (AwaitListTree p) /\
    selectedFilePath (ui (step w (LoadTree p))) = None /\
    fileContent (ui (step w (LoadTree p))) = None /\
    fileError (ui (step w (LoadTree p))) = None /\
    tree (ui (step w (LoadTree p))) = None /\
    expandedPaths (ui (step w (LoadTree p))) = expandedPaths (ui w).
Proof.
  exists (removelast (handleLoadTree p)).
  split; [reflexivity|]. split.
  - simpl. repeat (apply List.Forall_cons; [discriminate|]). apply List.Forall_nil.
  - rewrite step_LoadTree.
    destruct w as [[wp tr tl te sel fc fl fe sf ex lf] pend nxt]. simpl.
    rewrite lookup_insert_eq. repeat split; reflexivity.
Qed.

(** C1 as stated fails on the expansion set: a directory expanded under
    the first root is still in the set when the second root is loading. *)
Lemma loadTree_keeps_expansion :
  "/src" ∈ expandedPaths (ui (run expandThenReload initialWorld)) /\
  expandedPaths (ui (run expandThenReload initialWorld)) <> ∅.
Proof.
  assert (H : "/src" ∈ expandedPaths (ui (run expandThenReload initialWorld))).
  { apply (bool_decide_unpack _). vm_compute. exact I. }
  split; [exact H|]. intros Heq. rewrite Heq in H. now apply not_elem_of_empty in H.
Qed.











(** C4, as the code has it. With a workspace connected, after
    [handleFileSelect] for X, then for Y, Y's read arriving first and X's
    after it: the selection is Y, the content held is X's, and the viewer
    renders X's text under Y's path. *)
Theorem read_applied_on_arrival (w : World) (c : ascii) (root X Y textX textY : string) :
  workspacePath (ui w) = Some (String c root) ->
  let x := nextId w in
  let y := S (nextId w) in
  let arrived :=
    run [ FileSelect X; FileSelect Y;
          ReadTextFileSettled y (Fulfilled textY);
          ReadTextFileSettled x (Fulfilled textX) ] w in
  selectedFilePath (ui arrived) = Some Y /\
  fileContent (ui arrived) = Some textX /\
  viewer (ui arrived) = FileViewer (Some textX) (Some Y) false None.
Proof.
  intros Hroot x y arrived. subst arrived. unfold run. cbn [fold_left].
  assert (Hxy : x <> y) by (subst x y; lia).
  rewrite (step_FileSelect w c root X Hroot).
  rewrite (step_FileSelect _ c root Y).
  2:{ destruct w as [[wp tr tl te sel fc fl fe sf ex lf] pend nxt]. exact Hroot. }
  world_proj.
  rewrite (step_ReadTextFileSettled_fulfilled _ y (String c root) Y)
    by (world_proj; apply lookup_insert_eq).
  world_proj. rewrite (step_ReadTextFileSettled_fulfilled _ x (String c root) X).
  2:{ world_proj. rewrite lookup_delete_ne, lookup_insert_ne by auto.
      apply lookup_insert_eq. }
  world_proj. destruct w as [[wp tr tl te sel fc fl fe sf ex lf] pend nxt].
  unfold viewer. ui_proj. repeat split; reflexivity.
Qed.

(** C4 as stated fails: with [x.rs] selected first and [y.py] second, Y's
    read settling before X's, the viewer ends on X's text under Y's path. *)
Lemma stale_read_overwrites :
  selectedFilePath (ui (run staleRead initialWorld)) = Some "y.py" /\
  viewer (ui (run staleRead initialWorld)) =
    FileContentView (mkFormatted ["text of x"] (JsString "python")) /\
  fileContent (ui (run staleRead initialWorld)) <> Some "text of y".
Proof. split; [|split]; [vm_compute; reflexivity ..|vm_compute; discriminate]. Qed.

Lemma read_applied_on_arrival_witness :
  workspacePath (ui (run [ LoadTree "/a" ] initialWorld)) = Some "/a" /\
  fileContent
    (ui (run [ FileSelect "x.rs"; FileSelect "y.py";
               ReadTextFileSettled 2 (Fulfilled "text of y");
               ReadTextFileSettled 1 (Fulfilled "text of x") ]
             (run [ LoadTree "/a" ] initialWorld))) = Some "text of x".
Proof.
  split; [reflexivity|].
  apply (read_applied_on_arrival (run [ LoadTree "/a" ] initialWorld)
           "/"%char "a" "x.rs" "y.py" "text of x" "text of y").
  reflexivity.
Defined.

(** ** Concrete trees *)

(** C5 as stated fails on its last part: the root's own name passes the
    code's test for the filter, so a match exists in the tree, yet no child
    of the root matches and the root's path is not collected. *)
Lemma root_name_match_not_collected :
  kindsConsistent namedRoot /\ uniquePaths namedRoot /\
  In namedRoot (nodes namedRoot) /\
  nameIncludes namedRoot "app" = true /\
  nodeMatchesFilter namedRoot "app" = true /\
  path namedRoot ∉ getPathsToExpand namedRoot "app" "".
Proof.
  split; [by_evaluation|]. split; [by_evaluation|].
  split; [apply nodes_self|].
  split; [reflexivity|].
  split; [reflexivity|].
  intros H. apply getPathsToExpand_elem in H.
  destruct H as (c & [<-|[]] & Hm & _). vm_compute in Hm. discriminate.
Qed.

Lemma getPathsToExpand_reveals_witness :
  kindsConsistent sampleTree /\ uniquePaths sampleTree /\
  rendered (getPathsToExpand sampleTree "TS" "") "TS" sampleTree
           (fileNode "a.ts" "/src/a.ts") /\
  path sampleTree ∈ getPathsToExpand sampleTree "TS" "".
Proof.
  assert (Hk : kindsConsistent sampleTree) by by_evaluation.
  assert (Hu : uniquePaths sampleTree) by by_evaluation.
  split; [exact Hk|]. split; [exact Hu|].
  destruct (getPathsToExpand_reveals sampleTree "TS" Hk Hu) as (Hrows & _ & Hroot).
  split.
  - apply Hrows.
    + vm_compute. auto.
    + reflexivity.
    + reflexivity.
  - apply Hroot. exists (fileNode "a.ts" "/src/a.ts"). split.
    + vm_compute. auto.
    + reflexivity.
Defined.

Lemma getPathsToExpand_directories_witness :
  wellFormed sampleTree /\
  "/src/a.ts" ∉ getPathsToExpand sampleTree "a" "".
Proof.
  assert (Hwf : wellFormed sampleTree).
  { split; by_evaluation. }
  split; [exact Hwf|].
  destruct (getPathsToExpand_directories sampleTree "a" Hwf) as (_ & Hfiles & _).
  apply (Hfiles (fileNode "a.ts" "/src/a.ts")).
  - vm_compute. auto.
  - reflexivity.
Defined.

(** ** Content formatter *)

Section Formatter.

Implicit Types (s text path stem ext : string) (sep : ascii).

Lemma split_nonempty sep s : Js.split sep s <> [].
Proof.
  destruct s as [|c s]; simpl; [discriminate|].
  destruct (Ascii.eqb c sep); [discriminate|].
  destruct (Js.split sep s); discriminate.
Qed.

(** Splitting distributes over a separator in the text. *)
Lemma split_app sep s1 s2 :
  Js.split sep (s1 +:+ String sep s2) = Js.split sep s1 ++ Js.split sep s2.
Proof.
  induction s1 as [|c s1 IH]; simpl.
  - now rewrite Ascii.eqb_refl.
  - destruct (Ascii.eqb c sep); [now rewrite IH|].
    rewrite IH. pose proof (split_nonempty sep s1) as Hne.
    destruct (Js.split sep s1) as [|seg segs]; [congruence|reflexivity].
Qed.

(** A text ending in the separator yields one more, empty, segment. *)
Lemma split_trailing sep s :
  Js.split sep (s +:+ String sep "") = Js.split sep s ++ [""].
Proof. apply split_app. Qed.

(** Nothing is lost: joining the segments gives the text back. *)
Lemma join_split sep s : Js.join sep (Js.split sep s) = s.
Proof.
  induction s as [|c s IH]; simpl; [reflexivity|].
  pose proof (split_nonempty sep s) as Hne.
  destruct (Ascii.eqb_spec c sep) as [->|Hc].
  - simpl. destruct (Js.split sep s) as [|seg segs]; [congruence|].
    now rewrite IH.
  - destruct (Js.split sep s) as [|seg segs]; [congruence|].
    destruct segs as [|seg' segs]; simpl in *; now rewrite <- IH.
Qed.

(** No segment holds the separator. *)
Lemma split_segments sep s :
  Forall (fun seg => Js.includes seg (String sep "") = false) (Js.split sep s).
Proof.
  induction s as [|c s IH]; simpl.
  - now repeat constructor.
  - destruct (Ascii.eqb c sep) eqn:Hc.
    + constructor; [reflexivity|exact IH].
    + destruct (Js.split sep s) as [|seg segs]; simpl.
      * repeat constructor. simpl. now rewrite Hc.
      * apply Forall_cons in IH. destruct IH as [Hseg Hsegs].
        apply List.Forall_cons; [|exact Hsegs].
        simpl. rewrite Hc. simpl.
        destruct seg; exact Hseg.
Qed.

Lemma format_empty_text path : lines (format path "") = [""].
Proof. reflexivity. Qed.

Lemma format_trailing_newline path text :
  lines (format path (text +:+ String Js.LF "")) = lines (format path text) ++ [""].
Proof. apply split_trailing. Qed.

Lemma format_example :
  format "x.rs" ("fn main() {}" +:+ String Js.LF "") =
  mkFormatted ["fn main() {}"; ""] (JsString "rust").
Proof. reflexivity. Qed.

(** A path without a dot is one segment, so the whole lowered path is
    taken for the extension. *)
Lemma split_dotless sep s :
  Js.includes s (String sep "") = false -> Js.split sep s = [s].
Proof.
  induction s as [|c s IH]; simpl; [reflexivity|].
  destruct (Ascii.eqb c sep); simpl; [discriminate|].
  intros H. rewrite IH; [reflexivity|]. destruct s; exact H.
Qed.

Lemma extensionOf_dotless path :
  Js.includes path "." = false -> extensionOf path = Js.toLowerCase path.
Proof.
  intros H. unfold extensionOf. rewrite (split_dotless Js.DOT path H).
  apply or_else_empty.
Qed.

Lemma pop_app {A} (l1 l2 : list A) : l2 <> [] -> Js.pop (l1 ++ l2) = Js.pop l2.
Proof.
  intros Hne. unfold Js.pop.
  induction l1 as [|x l1 IH]; simpl; [reflexivity|].
  rewrite <- IH. destruct (l1 ++ l2) eqn:Happ; [|reflexivity].
  apply app_eq_nil in Happ. now destruct Happ.
Qed.

(** With a dot in the path, the extension is the lowered text after the
    last dot. *)
Lemma extensionOf_dotted stem ext :
  Js.includes ext "." = false ->
  extensionOf (stem +:+ String Js.DOT ext) = Js.toLowerCase ext.
Proof.
  intros H. unfold extensionOf.
  rewrite split_app, (split_dotless Js.DOT ext H), pop_app by discriminate.
  apply or_else_empty.
Qed.

End Formatter.

(** C8 at the inputs where the code leaves it. A path without any dot is
    looked up whole, so the root-level files [go] and [env] are labelled
    [go] and [dotenv] although they have no extension; and an extension
    naming a member of [Object.prototype] yields that member, not a label. *)
Theorem getLanguageFromPath_without_extension (rawText : string) :
  Js.includes "go" "." = false /\
  extensionOf "go" = "go" /\
  language (format "go" rawText) = JsString "go" /\
  language (format "env" rawText) = JsString "dotenv" /\
  language (format "lib.constructor" rawText) = JsInherited "constructor" /\
  language (format "Makefile" rawText) = JsString "plaintext".
Proof. repeat split; reflexivity. Qed.

(** * Further properties of the code *)

(** ** Matching *)

Lemma lower_unit_idem c : Js.lower_unit (Js.lower_unit c) = Js.lower_unit c.
Proof. destruct c as [[] [] [] [] [] [] [] []]; reflexivity. Qed.

Lemma toLowerCase_idem s : Js.toLowerCase (Js.toLowerCase s) = Js.toLowerCase s.
Proof. induction s as [|c s IH]; simpl; [reflexivity|]. now rewrite lower_unit_idem, IH. Qed.

Lemma append_assoc (a b c : string) : (a +:+ b) +:+ c = a +:+ (b +:+ c).
Proof.
  induction a as [|x a IH]; [reflexivity|].
  change (String x ((a +:+ b) +:+ c) = String x (a +:+ b +:+ c)). now rewrite IH.
Qed.

Lemma includes_trans s t u :
  Js.includes s t = true -> Js.includes t u = true -> Js.includes s u = true.
Proof.
  rewrite !includes_spec. intros (a & b & ->) (c & d & ->).
  exists (a +:+ c), (d +:+ b). now rewrite !append_assoc.
Qed.

(** X1. A node matches a filter exactly when the code's name test
    ([nameIncludes]) holds at the node or at a node below it; equivalently,
    when it holds at the node or some node below it matches; and the empty
    filter matches every node. *)
Theorem nodeMatchesFilter_subtree (node : TreeNode) (filter : string) :
  (nodeMatchesFilter node filter = true <->
   exists d, In d (nodes node) /\ nameIncludes d filter = true) /\
  (nodeMatchesFilter node filter = true <->
   nameIncludes node filter = true \/
   exists d, In d (descendants node) /\ nodeMatchesFilter d filter = true) /\
  nodeMatchesFilter node "" = true.
Proof.
  split; [apply nodeMatchesFilter_nodes|]. split; [|apply nodeMatchesFilter_empty].
  split.
  - intros Hm. apply nodeMatchesFilter_nodes in Hm. destruct Hm as (d & Hd & Hm).
    rewrite nodes_eq in Hd. destruct Hd as [<-|Hd]; [now left|right].
    exists d. split; [exact Hd|]. apply nodeMatchesFilter_nodes.
    exists d. split; [apply nodes_self|exact Hm].
  - intros [Hn|(d & Hd & Hm)].
    + apply nodeMatchesFilter_nodes. exists node. split; [apply nodes_self|exact Hn].
    + eapply nodeMatchesFilter_descendant; [|exact Hm]. now apply descendants_nodes.
Qed.

Lemma nodeMatchesFilter_subtree_witness :
  nodeMatchesFilter sampleTree "TS" = true /\
  nodeMatchesFilter sampleTree "tsx" = false.
Proof.
  split.
  - apply (proj1 (nodeMatchesFilter_subtree sampleTree "TS")).
    exists (fileNode "a.ts" "/src/a.ts"). split; [vm_compute; auto|reflexivity].
  - destruct (nodeMatchesFilter sampleTree "tsx") eqn:Hm; [|reflexivity].
    apply (proj1 (nodeMatchesFilter_subtree sampleTree "tsx")) in Hm.
    destruct Hm as (d & Hd & Hm). vm_compute in Hd.
    destruct Hd as [<-|[<-|[<-|[<-|[<-|[]]]]]]; vm_compute in Hm; discriminate.
Defined.

Lemma nodeMatchesFilter_ext f1 f2 :
  (forall nm, Js.includes (Js.toLowerCase nm) (Js.toLowerCase f1) = true ->
              Js.includes (Js.toLowerCase nm) (Js.toLowerCase f2) = true) ->
  forall n, nodeMatchesFilter n f1 = true -> nodeMatchesFilter n f2 = true.
Proof.
  intros Hname n. rewrite !nodeMatchesFilter_nodes. intros (d & Hd & H).
  exists d. split; [exact Hd|]. now apply Hname.
Qed.

Lemma getPathsToExpand_mono f1 f2 :
  (forall c, nodeMatchesFilter c f1 = true -> nodeMatchesFilter c f2 = true) ->
  forall n parentPath, getPathsToExpand n f1 parentPath ⊆ getPathsToExpand n f2 parentPath.
Proof.
  intros Hm n.
  induction n as [nm p k sz big | nm p k cs sz big IH] using TreeNode_rose_ind;
    intros parentPath q Hq; apply getPathsToExpand_elem in Hq;
    destruct Hq as (c & Hc & Hmc & Hq); [destruct Hc|].
  apply getPathsToExpand_elem. exists c. split; [exact Hc|]. split; [now apply Hm|].
  destruct Hq as [->|Hq]; [now left|right].
  rewrite List.Forall_forall in IH. now apply (IH c Hc).
Qed.

Lemma filter_sublist_implies {A} (P Q : A -> bool) (l : list A) :
  (forall a, P a = true -> Q a = true) ->
  List.filter P l `sublist_of` List.filter Q l.
Proof.
  intros HPQ. induction l as [|a l IH]; simpl; [constructor|].
  destruct (P a) eqn:HP.
  - rewrite (HPQ a HP). now apply sublist_skip.
  - destruct (Q a); [now apply sublist_cons|exact IH].
Qed.

(** X2. The filter is insensitive to letter case: two filter texts equal
    up to case match the same nodes, collect the same paths and leave the
    same children visible. *)
Theorem filter_case_insensitive (filter filter' : string) :
  equalIgnoringCase filter filter' ->
  forall n parentPath,
    nodeMatchesFilter n filter = nodeMatchesFilter n filter' /\
    getPathsToExpand n filter parentPath = getPathsToExpand n filter' parentPath /\
    visibleChildren n filter = visibleChildren n filter'.
Proof.
  unfold equalIgnoringCase. intros Heq.
  assert (Hm : forall c, nodeMatchesFilter c filter = nodeMatchesFilter c filter').
  { intros c. apply eq_true_iff_eq. split; apply nodeMatchesFilter_ext; intros nm;
      [rewrite Heq|rewrite <- Heq]; auto. }
  intros n parentPath. split; [apply Hm|]. split.
  - apply set_eq. intros q. split; apply getPathsToExpand_mono; intros c;
      [rewrite Hm|rewrite <- Hm]; auto.
  - assert (Ht : Js.truthy filter = Js.truthy filter').
    { clear Hm. destruct filter, filter'; simpl in Heq; try discriminate; reflexivity. }
    rewrite !visibleChildren_survives. unfold survives. rewrite Ht.
    apply List.filter_ext. intros c. now rewrite Hm.
Qed.

(** X3. Narrowing the filter narrows the view: when the lower-cased
    [shorter] occurs in the lower-cased [longer] (as when the user types on),
    every node matching [longer] matches [shorter], the paths collected for
    [longer] are among those for [shorter], and the children visible under
    [longer] are a subsequence of those visible under [shorter]. *)
Theorem filter_narrowing (shorter longer : string) :
  Js.includes (Js.toLowerCase longer) (Js.toLowerCase shorter) = true ->
  forall n parentPath,
    (nodeMatchesFilter n longer = true -> nodeMatchesFilter n shorter = true) /\
    getPathsToExpand n longer parentPath ⊆ getPathsToExpand n shorter parentPath /\
    visibleChildren n longer `sublist_of` visibleChildren n shorter.
Proof.
  intros Hsub.
  assert (Hm : forall c, nodeMatchesFilter c longer = true ->
                         nodeMatchesFilter c shorter = true).
  { apply nodeMatchesFilter_ext. intros nm H. eapply includes_trans; eauto. }
  intros n parentPath. split; [apply Hm|]. split; [now apply getPathsToExpand_mono|].
  rewrite !visibleChildren_survives. apply filter_sublist_implies.
  intros c. unfold survives. rewrite !orb_true_iff. intros [H|H].
  - left. destruct longer; [|discriminate].
    destruct shorter; [reflexivity|]. simpl in Hsub. discriminate.
  - right. now apply Hm.
Qed.

Lemma filter_case_insensitive_witness :
  equalIgnoringCase "TS" "ts" /\
  getPathsToExpand sampleTree "TS" "" = getPathsToExpand sampleTree "ts" "".
Proof.
  assert (H : equalIgnoringCase "TS" "ts") by reflexivity.
  split; [exact H|].
  exact (proj1 (proj2 (filter_case_insensitive "TS" "ts" H sampleTree ""))).
Defined.

Lemma filter_narrowing_witness :
  Js.includes (Js.toLowerCase "A.T") (Js.toLowerCase "a") = true /\
  getPathsToExpand sampleTree "A.T" "" ⊆ getPathsToExpand sampleTree "a" "".
Proof.
  assert (H : Js.includes (Js.toLowerCase "A.T") (Js.toLowerCase "a") = true)
    by reflexivity.
  split; [exact H|].
  exact (proj1 (proj2 (filter_narrowing "a" "A.T" H sampleTree ""))).
Defined.

(** ** The collected paths *)

(** X4. [getPathsToExpand] collects exactly the paths of the nodes of the
    tree that have a matching child, and it is empty exactly when no child
    of the root matches. *)
Theorem getPathsToExpand_exact (t : TreeNode) (filter : string) :
  (forall p, p ∈ getPathsToExpand t filter "" <->
             exists d c, In d (nodes t) /\ path d = p /\
                         In c (childrenOf d) /\ nodeMatchesFilter c filter = true) /\
  (getPathsToExpand t filter "" = ∅ <->
   forall c, In c (childrenOf t) -> nodeMatchesFilter c filter = false).
Proof.
  assert (Hexact : forall n p,
    p ∈ getPathsToExpand n filter (path n) <->
    exists d c, In d (nodes n) /\ path d = p /\
                In c (childrenOf d) /\ nodeMatchesFilter c filter = true).
  { intros n p. split; [apply getPathsToExpand_source|].
    induction n as [nm pn k sz big | nm pn k cs sz big IH] using TreeNode_rose_ind;
      intros (d & c & Hd & Hp & Hc & Hm); rewrite nodes_eq in Hd.
    - destruct Hd as [<-|[]]. destruct Hc.
    - destruct Hd as [<-|Hd].
      + rewrite <- Hp, <- (currentPath_own (mkTreeNode nm pn k (Some cs) sz big)) at 1.
        eapply getPathsToExpand_own; eauto.
      + apply descendants_iff in Hd. destruct Hd as (c0 & Hc0 & Hd).
        assert (Hm0 : nodeMatchesFilter c0 filter = true).
        { eapply nodeMatchesFilter_descendant; [exact Hd|].
          eapply nodeMatchesFilter_descendant; [|exact Hm].
          eapply nodes_child; [exact Hc|apply nodes_self]. }
        apply (getPathsToExpand_child _ filter _ c0 Hc0 Hm0).
        rewrite List.Forall_forall in IH. apply (IH c0 Hc0). eauto 8. }
  split.
  - intros p. rewrite getPathsToExpand_root. apply Hexact.
  - split.
    + intros Hempty c Hc. destruct (nodeMatchesFilter c filter) eqn:Hm; [|reflexivity].
      pose proof (getPathsToExpand_own t filter "" c Hc Hm) as Hin.
      rewrite Hempty in Hin. now apply not_elem_of_empty in Hin.
    + intros Hnone. apply set_eq. intros p. split; [|intros H; now apply not_elem_of_empty in H].
      intros Hp. apply getPathsToExpand_elem in Hp. destruct Hp as (c & Hc & Hm & _).
      rewrite (Hnone c Hc) in Hm. discriminate.
Qed.

(** ** The rendered rows *)

Lemma TreeNodeItem_below E f c d k n :
  Forall (fun child => forall d k n,
            In (k, n) (TreeNodeItem E f child (S d)) <->
            (k = S d /\ n = child) \/
            (path child ∈ E /\ exists j, k = (S d + j)%nat /\ revealed E f child j n))
         (childrenOf c) ->
  node_type c = dir ->
  In (k, n) (flat_map (fun child => TreeNodeItem E f child (S d)) (visibleChildren c f)) <->
  exists j, k = (d + j)%nat /\ revealed E f c j n.
Proof.
  intros IH Hdir. rewrite List.Forall_forall in IH. rewrite List.in_flat_map. split.
  - intros (child & Hvis & Hin).
    assert (Hchild : In child (childrenOf c)) by (apply visibleChildren_In in Hvis; tauto).
    apply (IH child Hchild) in Hin. destruct Hin as [[-> ->]|(Hexp & j & -> & Hrev)].
    + exists 1%nat. split; [lia|]. now apply revealed_child.
    + exists (S j). split; [lia|]. now apply (revealed_deeper E f c child).
  - intros (j & -> & Hrev). inversion Hrev as [t0 c0 _ Hvis|t0 c0 j0 n0 _ Hvis Hexp Hrev0]; subst.
    + exists n. split; [exact Hvis|].
      apply IH; [apply visibleChildren_In in Hvis; tauto|]. left. split; [lia|reflexivity].
    + exists c0. split; [exact Hvis|].
      apply IH; [apply visibleChildren_In in Hvis; tauto|]. right.
      split; [exact Hexp|]. exists j0. split; [lia|exact Hrev0].
Qed.

Lemma TreeNodeItem_nested E f c : forall d k n,
  In (k, n) (TreeNodeItem E f c (S d)) <->
  (k = S d /\ n = c) \/
  (path c ∈ E /\ exists j, k = (S d + j)%nat /\ revealed E f c j n).
Proof.
  induction c as [nm p kd sz big | nm p kd cs sz big IH] using TreeNode_rose_ind;
    intros d k n; rewrite TreeNodeItem_visibleChildren; cbn zeta;
    change (S d =? 0)%nat with false; cbn [andb].
  - cbn [visibleChildren children length Nat.ltb Nat.leb andb flat_map].
    rewrite andb_false_r. split.
    + intros [H|[]]. left. now inversion H.
    + intros [[-> ->]|(_ & j & _ & Hrev)]; [now left|].
      inversion Hrev as [? ? _ Hvis|? ? ? ? _ Hvis]; destruct Hvis.
  - set (c := mkTreeNode nm p kd (Some cs) sz big) in *.
    destruct (bool_decide (node_type c = dir)) eqn:Hdir; cycle 1.
    { cbn [andb]. apply bool_decide_eq_false in Hdir. split.
      - intros [H|[]]. left. now inversion H.
      - intros [[-> ->]|(_ & j & _ & Hrev)]; [now left|].
        inversion Hrev; subst; contradiction. }
    apply bool_decide_eq_true in Hdir.
    pose proof (TreeNodeItem_below E f c (S d) k n IH Hdir) as Hbelow.
    destruct (bool_decide (path c ∈ E)) eqn:Hexp; cbn [andb]; cycle 1.
    { apply bool_decide_eq_false in Hexp. split.
      - intros [H|[]]. left. now inversion H.
      - intros [[-> ->]|(Hin & _)]; [now left|contradiction]. }
    apply bool_decide_eq_true in Hexp.
    destruct (0 <? length (visibleChildren c f))%nat eqn:Hlen.
    + cbn [In]. rewrite Hbelow. split.
      * intros [H|H]; [left; now inversion H|right; tauto].
      * intros [[-> ->]|(_ & H)]; [now left|now right].
    + apply Nat.ltb_ge in Hlen.
      assert (Hnil : visibleChildren c f = []).
      { destruct (visibleChildren c f); [reflexivity|simpl in Hlen; lia]. }
      split.
      * intros [H|[]]. left. now inversion H.
      * intros [[-> ->]|(_ & j & _ & Hrev)]; [now left|].
        inversion Hrev as [? ? _ Hvis|? ? ? ? _ Hvis]; subst; rewrite Hnil in Hvis;
          destruct Hvis.
Qed.

Lemma revealed_atLevel E f t k n :
  revealed E f t k n ->
  atLevel t k n /\ (1 <= k)%nat /\ survives f n = true /\ In n (descendants t).
Proof.
  induction 1 as [t c Hdir Hvis|t c k n Hdir Hvis Hexp Hrev IH].
  - apply visibleChildren_In in Hvis. destruct Hvis as [Hc Hs].
    split; [eapply atLevel_below; [exact Hc|constructor]|].
    split; [lia|]. split; [exact Hs|].
    apply descendants_iff. exists c. split; [exact Hc|apply nodes_self].
  - apply visibleChildren_In in Hvis. destruct Hvis as [Hc _].
    destruct IH as (Hlvl & _ & Hs & Hdesc).
    split; [eapply atLevel_below; eauto|]. split; [lia|]. split; [exact Hs|].
    apply descendants_iff. exists c. split; [exact Hc|now apply descendants_nodes].
Qed.

(** X5. The rows of a directory root are exactly the nodes reached from it
    through visible children and expanded directories: a node has a row, at
    nesting depth [k], exactly when a chain of [k] visible children leads to
    it from the root and every directory on the way is expanded. *)
Theorem TreeNodeItem_rows (E : gset string) (f : string) (t : TreeNode) (k : nat)
    (n : TreeNode) :
  node_type t = dir ->
  (In (k, n) (TreeNodeItem E f t 0) <-> revealed E f t k n).
Proof.
  intros Hdir. rewrite TreeNodeItem_visibleChildren. cbn zeta.
  rewrite (bool_decide_eq_true_2 _ Hdir). cbn [Nat.eqb andb].
  rewrite (TreeNodeItem_below E f t 0 k n); [|
    apply List.Forall_forall; intros child _; apply TreeNodeItem_nested | exact Hdir].
  split.
  - now intros (j & -> & H).
  - intros H. now exists k.
Qed.

(** X6. Every row of a directory root shows a node strictly below the
    root, at the depth it has in the tree (the root's children at depth 1),
    and a node that passes the filter. *)
Theorem TreeNodeItem_rows_sound (E : gset string) (f : string) (t : TreeNode) (k : nat)
    (n : TreeNode) :
  node_type t = dir ->
  In (k, n) (TreeNodeItem E f t 0) ->
  In n (descendants t) /\ atLevel t k n /\ (1 <= k)%nat /\ survives f n = true.
Proof.
  intros Hdir Hin. apply (TreeNodeItem_rows E f t k n Hdir) in Hin.
  apply revealed_atLevel in Hin. tauto.
Qed.

Lemma TreeNodeItem_rows_witness :
  node_type sampleTree = dir /\
  (In (2%nat, fileNode "a.ts" "/src/a.ts") (TreeNodeItem {[ "/src" ]} "" sampleTree 0) <->
   revealed {[ "/src" ]} "" sampleTree 2 (fileNode "a.ts" "/src/a.ts")).
Proof.
  split; [reflexivity|].
  apply (TreeNodeItem_rows {[ "/src" ]} "" sampleTree 2 (fileNode "a.ts" "/src/a.ts")).
  reflexivity.
Defined.

Lemma TreeNodeItem_rows_sound_witness :
  node_type sampleTree = dir /\
  In (2%nat, fileNode "a.ts" "/src/a.ts") (TreeNodeItem {[ "/src" ]} "" sampleTree 0) /\
  atLevel sampleTree 2 (fileNode "a.ts" "/src/a.ts").
Proof.
  assert (Hin : In (2%nat, fileNode "a.ts" "/src/a.ts")
                   (TreeNodeItem {[ "/src" ]} "" sampleTree 0)).
  { vm_compute. auto. }
  split; [reflexivity|]. split; [exact Hin|].
  exact (proj1 (proj2 (TreeNodeItem_rows_sound {[ "/src" ]} "" sampleTree 2
                         (fileNode "a.ts" "/src/a.ts") eq_refl Hin))).
Defined.

Lemma flat_map_singleton {A B} (g : A -> B) (h : A -> list B) (l : list A) :
  (forall a, In a l -> h a = [g a]) -> flat_map h l = List.map g l.
Proof.
  induction l as [|a l IH]; simpl; intros H; [reflexivity|].
  rewrite (H a) by now left. simpl. f_equal. apply IH. intros b Hb. apply H. now right.
Qed.

(** X7. While none of the root's visible children is expanded, the rows
    of a directory root are its visible children, in their order, each at
    depth 1; in particular with an empty expansion set. *)
Theorem TreeNodeItem_collapsed (E : gset string) (f : string) (t : TreeNode) :
  node_type t = dir ->
  (forall c, In c (visibleChildren t f) -> path c ∉ E) ->
  TreeNodeItem E f t 0 = List.map (fun c => (1%nat, c)) (visibleChildren t f).
Proof.
  intros Hdir Hcollapsed. rewrite TreeNodeItem_visibleChildren. cbn zeta.
  rewrite (bool_decide_eq_true_2 _ Hdir). cbn [Nat.eqb andb].
  apply flat_map_singleton. intros c Hc.
  rewrite TreeNodeItem_visibleChildren. cbn zeta. cbn [Nat.eqb andb].
  rewrite (bool_decide_eq_false_2 _ (Hcollapsed c Hc)).
  now rewrite andb_false_r.
Qed.

Lemma TreeNodeItem_collapsed_witness :
  node_type sampleTree = dir /\
  TreeNodeItem ∅ "a" sampleTree 0 =
    List.map (fun c => (1%nat, c)) (visibleChildren sampleTree "a").
Proof.
  split; [reflexivity|].
  apply (TreeNodeItem_collapsed ∅ "a" sampleTree); [reflexivity|].
  intros c _. apply not_elem_of_empty.
Defined.

(** X8. With every directory below the root expanded, each node below the
    root that matches the filter has a row, and with the empty filter every
    node below the root has one. *)
Theorem TreeNodeItem_expanded (E : gset string) (f : string) (t : TreeNode) :
  kindsConsistent t ->
  (forall d, In d (descendants t) -> childrenOf d <> [] -> path d ∈ E) ->
  forall n, In n (descendants t) ->
            f = "" \/ nodeMatchesFilter n f = true ->
            exists k, In (k, n) (TreeNodeItem E f t 0).
Proof.
  intros Hk Hexp n Hn Hshow.
  assert (Hsurv : forall c, In n (nodes c) -> survives f c = true).
  { intros c Hc. unfold survives. destruct Hshow as [->|Hm]; [reflexivity|].
    rewrite (nodeMatchesFilter_descendant c n f Hc Hm). apply orb_true_r. }
  assert (Hrev : exists k, revealed E f t k n).
  { revert Hk Hexp Hn.
    induction t as [nm p kd sz big | nm p kd cs sz big IH] using TreeNode_rose_ind;
      intros Hk Hexp Hn; [destruct Hn|].
    set (t := mkTreeNode nm p kd (Some cs) sz big) in *.
    apply descendants_iff in Hn. destruct Hn as (c & Hc & Hn).
    assert (Hdir : node_type t = dir)
      by (eapply kindsConsistent_dir; [exact Hk|apply nodes_self|exact Hc]).
    assert (Hvis : In c (visibleChildren t f))
      by (apply visibleChildren_In; split; [exact Hc|now apply Hsurv]).
    rewrite nodes_eq in Hn. destruct Hn as [<-|Hn].
    - exists 1%nat. now apply revealed_child.
    - rewrite List.Forall_forall in IH. destruct (IH c Hc) as (k & Hrev).
      + unfold kindsConsistent in *. rewrite List.Forall_forall in *.
        intros x Hx. apply Hk. eapply nodes_child; eauto.
      + intros d Hd Hne. apply Hexp; [|exact Hne].
        apply descendants_iff. exists c. split; [exact Hc|now apply descendants_nodes].
      + exact Hn.
      + exists (S k). apply (revealed_deeper E f t c); auto.
        apply Hexp.
        * apply descendants_iff. exists c. split; [exact Hc|apply nodes_self].
        * intros Hnil. unfold descendants in Hn. rewrite Hnil in Hn. destruct Hn. }
  destruct Hrev as (k & Hrev). exists k.
  assert (Hdir : node_type t = dir) by (inversion Hrev; assumption).
  now apply TreeNodeItem_rows.
Qed.

Lemma TreeNodeItem_expanded_witness :
  kindsConsistent sampleTree /\
  exists k, In (k, fileNode "a.ts" "/src/a.ts") (TreeNodeItem {[ "/src" ]} "" sampleTree 0).
Proof.
  assert (Hk : kindsConsistent sampleTree) by by_evaluation.
  split; [exact Hk|].
  apply (TreeNodeItem_expanded {[ "/src" ]} "" sampleTree Hk).
  - intros d Hd Hne. vm_compute in Hd.
    destruct Hd as [<-|[<-|[<-|[<-|[]]]]]; try (exfalso; apply Hne; reflexivity).
    apply elem_of_singleton. reflexivity.
  - vm_compute. auto.
  - left. reflexivity.
Defined.

(** ** The event loop *)

Lemma autoExpand_superset f tr (prev : gset string) : prev ⊆ autoExpand f tr prev.
Proof.
  unfold autoExpand. destruct tr as [t|]; [|reflexivity].
  destruct (Js.truthy f); [|reflexivity]. apply union_subseteq_l.
Qed.

(** X9. The expansion set only ever loses a path through a toggle: every
    other event (a load, a selection, a change of the filter, any
    settlement) leaves it the same or larger; the auto-expansion itself only
    adds, and adding twice adds nothing more. *)
Theorem expandedPaths_grow (w : World) (e : Event) :
  (forall p, e <> ToggleExpanded p) ->
  expandedPaths (ui w) ⊆ expandedPaths (ui (step w e)) /\
  (forall f tr (prev : gset string),
      prev ⊆ autoExpand f tr prev /\
      autoExpand f tr (autoExpand f tr prev) = autoExpand f tr prev).
Proof.
  intros Hnot. split.
  - destruct w as [[wp tr tl te sel fc fl fe sf ex lf] pend nxt].
    destruct e as [p|relPath|p|value|id r|id r|id r]; world_step.
    + apply autoExpand_superset.
    + destruct wp as [[|c root]|]; world_step; reflexivity.
    + now destruct (Hnot p).
    + destruct (String.eqb value lf); world_step;
        [reflexivity|apply autoExpand_superset].
    + destruct (pend !! id) as [[p|p|root rel]|]; world_step; try reflexivity.
      destruct r as [t|m]; world_step; [apply autoExpand_superset|reflexivity].
    + destruct (pend !! id) as [[p|p|root rel]|]; world_step; try reflexivity.
      destruct r as [[]|m]; world_step; reflexivity.
    + destruct (pend !! id) as [[p|p|root rel]|]; world_step; try reflexivity.
      destruct r as [t|m]; world_step; reflexivity.
  - intros f tr prev. split; [apply autoExpand_superset|].
    unfold autoExpand. destruct tr as [t|]; [|reflexivity].
    destruct (Js.truthy f); [|reflexivity].
    apply set_eq. intros q. rewrite !elem_of_union. tauto.
Qed.

Lemma expandedPaths_grow_witness :
  (forall p, SearchChange "a" <> ToggleExpanded p) /\
  expandedPaths (ui (run expandThenReload initialWorld)) ⊆
  expandedPaths (ui (step (run expandThenReload initialWorld) (SearchChange "a"))).
Proof.
  assert (H : forall p, SearchChange "a" <> ToggleExpanded p) by discriminate.
  split; [exact H|].
  exact (proj1 (expandedPaths_grow (run expandThenReload initialWorld) (SearchChange "a") H)).
Defined.

(** X10. A toggle flips the membership of its path and of no other. *)
Theorem toggleExpanded_flips (prev : gset string) (p q : string) :
  q ∈ toggleExpanded p prev <-> (q <> p /\ q ∈ prev) \/ (q = p /\ p ∉ prev).
Proof.
  unfold toggleExpanded. destruct (decide (p ∈ prev)) as [Hin|Hout].
  - rewrite elem_of_difference, elem_of_singleton. split.
    + intros [Hq Hne]. left. tauto.
    + intros [[Hne Hq]|[-> Hn]]; [tauto|contradiction].
  - rewrite elem_of_union, elem_of_singleton.
    destruct (decide (q = p)) as [->|Hne]; [tauto|]. tauto.
Qed.

(** X11. Without a connected workspace ([workspacePath] null or empty) a
    file selection does nothing: no state changes and no read is issued. *)
Theorem handleFileSelect_no_workspace (w : World) (relPath : string) :
  Js.truthy_opt (workspacePath (ui w)) = false ->
  ui (step w (FileSelect relPath)) = ui w /\
  pending (step w (FileSelect relPath)) = pending w.
Proof.
  destruct w as [[wp tr tl te sel fc fl fe sf ex lf] pend nxt]. world_step.
  intros Hwp. destruct wp as [[|c root]|]; [| discriminate |]; world_step; auto.
Qed.

Lemma handleFileSelect_no_workspace_witness :
  Js.truthy_opt (workspacePath (ui initialWorld)) = false /\
  ui (step initialWorld (FileSelect "a.ts")) = ui initialWorld.
Proof.
  split; [reflexivity|].
  exact (proj1 (handleFileSelect_no_workspace initialWorld "a.ts" eq_refl)).
Defined.

(** X12. Activating a directory row, by click or by Enter or Space, only
    toggles its path in the expansion set: the selection, the file content
    and everything else stay, and no external call is issued.  Any other key
    does nothing. *)
Theorem handleClick_directory (w : World) (node : TreeNode) (key : string) :
  node_type node = dir ->
  ui (step w (handleClick node)) =
    setState (SetExpandedPaths (toggleExpanded (path node))) (ui w) /\
  pending (step w (handleClick node)) = pending w /\
  (handleKeyDown key node = Some (handleClick node) <-> key = "Enter" \/ key = " ") /\
  (handleKeyDown key node = None <-> key <> "Enter" /\ key <> " ").
Proof.
  intros Hdir. unfold handleKeyDown, handleClick.
  rewrite (bool_decide_eq_true_2 _ Hdir).
  destruct w as [[wp tr tl te sel fc fl fe sf ex lf] pend nxt]. world_step.
  split; [reflexivity|]. split; [reflexivity|].
  destruct (String.eqb_spec key "Enter") as [->|HE]; simpl.
  - split; split; auto; intros; try discriminate. tauto.
  - destruct (String.eqb_spec key " ") as [->|HS]; simpl.
    + split; split; auto; intros; try discriminate. tauto.
    + split; split; intros; try discriminate; tauto.
Qed.

Lemma handleClick_directory_witness :
  node_type sampleTree = dir /\
  pending (step initialWorld (handleClick sampleTree)) = pending initialWorld.
Proof.
  split; [reflexivity|].
  exact (proj1 (proj2 (handleClick_directory initialWorld sampleTree "Enter" eq_refl))).
Defined.

(** X13. Activating a file row with a workspace connected selects the
    file, clears the content and error of the previous one, issues one read
    for the workspace and the row's path, and puts the viewer on loading;
    the tree and the expansion set stay as they are. *)
Theorem handleClick_file (w : World) (node : TreeNode) (c : ascii) (root : string) :
  node_type node = file ->
  workspacePath (ui w) = Some (String c root) ->
  selectedFilePath (ui (step w (handleClick node))) = Some (path node) /\
  fileContent (ui (step w (handleClick node))) = None /\
  fileError (ui (step w (handleClick node))) = None /\
  viewer (ui (step w (handleClick node))) = FileLoadingView /\
  pending (step w (handleClick node)) =
    <[nextId w := AwaitReadTextFile (String c root) (path node)]> (pending w) /\
  tree (ui (step w (handleClick node))) = tree (ui w) /\
  expandedPaths (ui (step w (handleClick node))) = expandedPaths (ui w).
Proof.
  intros Hfile Hwp. unfold handleClick.
  rewrite bool_decide_eq_false_2 by congruence.
  rewrite (step_FileSelect w c root (path node) Hwp).
  destruct w as [[wp tr tl te sel fc fl fe sf ex lf] pend nxt].
  repeat split; reflexivity.
Qed.

Lemma handleClick_file_witness :
  node_type (fileNode "x.rs" "x.rs") = file /\
  workspacePath (ui (step initialWorld (LoadTree "/a"))) = Some "/a" /\
  viewer (ui (step (step initialWorld (LoadTree "/a")) (handleClick (fileNode "x.rs" "x.rs"))))
    = FileLoadingView.
Proof.
  split; [reflexivity|]. split; [reflexivity|].
  exact (proj1 (proj2 (proj2 (proj2
    (handleClick_file (step initialWorld (LoadTree "/a")) (fileNode "x.rs" "x.rs")
       "/"%char "a" eq_refl eq_refl))))).
Defined.

(** X14. A load whose listing fails ends with no tree, the failure's
    message as tree error, loading over and nothing saved or pending for
    it; [FileTree] shows the error, or the "no folder" state when the
    message is empty.  The expansion set is untouched. *)
Theorem handleLoadTree_listing_fails (w : World) (p message : string) :
  let w' := run [ LoadTree p; ListTreeSettled (nextId w) (Rejected message) ] w in
  tree (ui w') = None /\
  treeError (ui w') = Some message /\
  treeLoading (ui w') = false /\
  workspacePath (ui w') = Some p /\
  pending w' !! nextId w = None /\
  FileTree (ui w') =
    match message with
    | EmptyString => TreeEmptyView
    | String _ _ => TreeErrorView message
    end /\
  expandedPaths (ui w') = expandedPaths (ui w).
Proof.
  intros w'. subst w'. unfold run. cbn [fold_left]. rewrite step_LoadTree.
  destruct w as [[wp tr tl te sel fc fl fe sf ex lf] pend nxt].
  cbn [step pending ui nextId loadingUi]. rewrite lookup_insert_eq. world_step.
  rewrite lookup_delete_eq.
  repeat split; try reflexivity. unfold FileTree. world_step. now destruct message.
Qed.

(** X15. When the listing succeeds and saving the workspace path then
    fails with a non-empty message, the tree is held but [FileTree] shows
    the save's message as an error instead of the tree. *)
Theorem handleLoadTree_save_fails (w : World) (p : string) (t : TreeNode)
    (c : ascii) (message : string) :
  let w' := run [ LoadTree p; ListTreeSettled (nextId w) (Fulfilled t);
                  SaveWorkspacePathSettled (nextId w) (Rejected (String c message)) ] w in
  tree (ui w') = Some t /\
  treeLoading (ui w') = false /\
  FileTree (ui w') = TreeErrorView (String c message).
Proof.
  intros w'. subst w'. unfold run. cbn [fold_left]. rewrite step_LoadTree.
  rewrite (step_ListTreeSettled_fulfilled _ (nextId w) p)
    by (world_proj; apply lookup_insert_eq).
  destruct w as [[wp tr tl te sel fc fl fe sf ex lf] pend nxt].
  cbn [step pending ui nextId loadingUi]. rewrite lookup_insert_eq. world_step.
  repeat split; reflexivity.
Qed.

(** X16. A load that succeeds shows the listed tree under the new
    workspace path, with the paths collected for the current filter merged
    into the expansion set, and with no selection; the viewer is empty,
    unless a read was in flight, whose loading state the load does not
    reset. *)
Theorem handleLoadTree_succeeds (w : World) (p : string) (t : TreeNode) :
  let w' := run [ LoadTree p; ListTreeSettled (nextId w) (Fulfilled t);
                  SaveWorkspacePathSettled (nextId w) (Fulfilled tt) ] w in
  workspacePath (ui w') = Some p /\
  selectedFilePath (ui w') = None /\
  expandedPaths (ui w') =
    autoExpand (localSearchFilter (ui w)) (Some t) (expandedPaths (ui w)) /\
  FileTree (ui w') =
    TreeRowsView t (TreeNodeItem (expandedPaths (ui w')) (localSearchFilter (ui w)) t 0) /\
  viewer (ui w') = (if fileLoading (ui w) then FileLoadingView else FileEmptyView) /\
  pending w' !! nextId w = None.
Proof.
  intros w'. subst w'. unfold run. cbn [fold_left]. rewrite step_LoadTree.
  rewrite (step_ListTreeSettled_fulfilled _ (nextId w) p)
    by (world_proj; apply lookup_insert_eq).
  rewrite (step_SaveWorkspacePathSettled_fulfilled _ (nextId w) p)
    by (world_proj; apply lookup_insert_eq).
  destruct w as [[wp tr tl te sel fc fl fe sf ex lf] pend nxt].
  world_proj. rewrite lookup_delete_eq. ui_proj.
  repeat split; reflexivity.
Qed.



(** X18. A read that fails with a non-empty message keeps the selection,
    holds no content and shows the message in the viewer; the tree, its
    error and the expansion set are untouched. *)
Theorem handleFileSelect_fails (w : World) (c m : ascii) (root p message : string) :
  workspacePath (ui w) = Some (String c root) ->
  let w' := run [ FileSelect p;
                  ReadTextFileSettled (nextId w) (Rejected (String m message)) ] w in
  viewer (ui w') = FileErrorView (String m message) /\
  selectedFilePath (ui w') = Some p /\
  fileContent (ui w') = None /\
  tree (ui w') = tree (ui w) /\
  treeError (ui w') = treeError (ui w) /\
  expandedPaths (ui w') = expandedPaths (ui w).
Proof.
  intros Hwp w'. subst w'. unfold run. cbn [fold_left].
  rewrite (step_FileSelect w c root p Hwp).
  destruct w as [[wp tr tl te sel fc fl fe sf ex lf] pend nxt].
  cbn [step pending ui nextId]. rewrite lookup_insert_eq. world_step.
  repeat split; reflexivity.
Qed.

Lemma handleFileSelect_fails_witness :
  workspacePath (ui (step initialWorld (LoadTree "/a"))) = Some "/a" /\
  viewer
    (ui (run [ FileSelect "x.rs"; ReadTextFileSettled 1 (Rejected "binary file") ]
             (step initialWorld (LoadTree "/a")))) = FileErrorView "binary file".
Proof.
  split; [reflexivity|].
  exact (proj1
    (handleFileSelect_fails (step initialWorld (LoadTree "/a"))
       "/"%char "b"%char "a" "x.rs" "inary file" eq_refl)).
Defined.

(** ** States reached from the start *)

Lemma idleUntilConnected_step w e : idleUntilConnected w -> idleUntilConnected (step w e).
Proof.
  unfold idleUntilConnected. intros Hidle.
  destruct w as [[wp tr tl te sel fc fl fe sf ex lf] pend nxt].
  cbn [ui pending workspacePath tree treeLoading treeError selectedFilePath
       fileContent fileLoading fileError] in Hidle.
  destruct e as [p|relPath|p|value|id r|id r|id r]; world_step.
  - discriminate.
  - destruct wp as [[|c root]|]; world_step; [discriminate|discriminate|exact Hidle].
  - exact Hidle.
  - destruct (String.eqb value lf); world_step; exact Hidle.
  - destruct (pend !! id) as [[p|p|root rel]|] eqn:Hid; world_step; try exact Hidle.
    destruct r as [t|m]; world_step; intros Hwp; destruct (Hidle Hwp) as [Hp _];
      rewrite Hp, lookup_empty in Hid; discriminate.
  - destruct (pend !! id) as [[p|p|root rel]|] eqn:Hid; world_step; try exact Hidle.
    destruct r as [[]|m]; world_step; intros Hwp; destruct (Hidle Hwp) as [Hp _];
      rewrite Hp, lookup_empty in Hid; discriminate.
  - destruct (pend !! id) as [[p|p|root rel]|] eqn:Hid; world_step; try exact Hidle.
    destruct r as [t|m]; world_step; intros Hwp; destruct (Hidle Hwp) as [Hp _];
      rewrite Hp, lookup_empty in Hid; discriminate.
Qed.

Lemma idleUntilConnected_appStep w e :
  idleUntilConnected w -> idleUntilConnected (appStep w e).
Proof.
  intros Hidle. destruct e as [e|r|r]; cbn [appStep].
  - now apply idleUntilConnected_step.
  - unfold handleConnectFolder_selected.
    destruct r as [[[|c p]|]|message]; try exact Hidle.
    + now apply idleUntilConnected_step.
    + unfold idleUntilConnected in *.
      destruct w as [[wp tr tl te sel fc fl fe sf ex lf] pend nxt]. world_step.
      intros Hwp. destruct (Hidle Hwp) as (Hp & Htr & Htl & _ & Hrest).
      split; [exact Hp|]. split; [exact Htr|]. split; [exact Htl|].
      split; [right; now exists message|exact Hrest].
  - unfold loadLastWorkspace, loadWorkspacePath.
    destruct r as [[[|c p]|]|message]; try exact Hidle.
    now apply idleUntilConnected_step.
Qed.

Lemma appRun_invariant (P : World -> Prop) :
  (forall w e, P w -> P (appStep w e)) ->
  forall events w, P w -> P (appRun events w).
Proof.
  intros Hstep events. unfold appRun.
  induction events as [|e events IH]; intros w Hw; simpl; [exact Hw|].
  apply IH. now apply Hstep.
Qed.

(** X19. Whatever has happened since the start (loads, selections,
    toggles, filter changes, settlements of listings, saves and reads,
    folder dialogs and the start-up store read), as long as no workspace
    has been connected no tree is held, nothing is selected or loading, no
    listing, save or read is pending, the viewer shows its empty state, and
    [FileTree] shows its empty state or the error of a failed folder
    dialog. *)
Theorem idle_until_connected (events : list AppEvent) :
  workspacePath (ui (appRun events initialWorld)) = None ->
  pending (appRun events initialWorld) = ∅ /\
  tree (ui (appRun events initialWorld)) = None /\
  viewer (ui (appRun events initialWorld)) = FileEmptyView /\
  (FileTree (ui (appRun events initialWorld)) = TreeEmptyView \/
   exists message,
     FileTree (ui (appRun events initialWorld)) =
       TreeErrorView ("Failed to open folder picker: " +:+ message)).
Proof.
  intros Hwp.
  assert (Hidle : idleUntilConnected (appRun events initialWorld)).
  { apply appRun_invariant; [apply idleUntilConnected_appStep|].
    intros _. repeat split; try reflexivity. now left. }
  destruct (Hidle Hwp) as (Hp & Htree & Hload & Herr & Hsel & Hfc & Hfl & Hfe).
  split; [exact Hp|]. split; [exact Htree|]. split.
  - unfold viewer, FileViewer. now rewrite Hfl, Hfe, Hfc, Hsel.
  - unfold FileTree. rewrite Hload, Htree.
    destruct Herr as [->|(message & ->)]; [now left|right].
    exists message. reflexivity.
Qed.

Lemma idle_until_connected_witness :
  workspacePath
    (ui (appRun [ Ui (ToggleExpanded "/src"); FolderSelected (Rejected "no portal");
                  Ui (FileSelect "a.ts"); WorkspacePathLoaded (Fulfilled None) ]
                initialWorld)) = None /\
  viewer
    (ui (appRun [ Ui (ToggleExpanded "/src"); FolderSelected (Rejected "no portal");
                  Ui (FileSelect "a.ts"); WorkspacePathLoaded (Fulfilled None) ]
                initialWorld)) = FileEmptyView.
Proof.
  split; [reflexivity|].
  exact (proj1 (proj2 (proj2
    (idle_until_connected
       [ Ui (ToggleExpanded "/src"); FolderSelected (Rejected "no portal");
         Ui (FileSelect "a.ts"); WorkspacePathLoaded (Fulfilled None) ]
       eq_refl)))).
Defined.

(** X20. Typing a new, non-empty filter while a tree is shown merges the
    collected paths into the expansion set, so that on a tree with children
    on directories only every file whose name passes the code's test for
    the text ([nameIncludes]) has a row at once, whatever was expanded or
    collapsed before. *)
Theorem handleSearchChange_reveals (w : World) (t : TreeNode) (a : ascii) (v : string) :
  tree (ui w) = Some t ->
  treeLoading (ui w) = false ->
  Js.truthy_opt (treeError (ui w)) = false ->
  String.eqb (String a v) (localSearchFilter (ui w)) = false ->
  kindsConsistent t ->
  exists rows,
    FileTree (ui (step w (SearchChange (String a v)))) = TreeRowsView t rows /\
    expandedPaths (ui (step w (SearchChange (String a v)))) =
      expandedPaths (ui w) ∪ getPathsToExpand t (String a v) "" /\
    forall n, In n (nodes t) -> node_type n = file -> nameIncludes n (String a v) = true ->
              exists k, In (k, n) rows.
Proof.
  destruct w as [[wp tr tl te sel fc fl fe sf ex lf] pend nxt]. world_step.
  intros -> -> Herr Hneq Hk. rewrite Hneq. world_step.
  eexists. split; [|split].
  - unfold FileTree. world_step.
    destruct te as [[|c m]|]; [reflexivity|discriminate|reflexivity].
  - reflexivity.
  - intros n Hn Hfile Hname. cbn [autoExpand Js.truthy].
    apply matching_node_rendered; auto.
    + rewrite <- getPathsToExpand_root. apply union_subseteq_r.
    + apply nodeMatchesFilter_nodes. exists n. split; [apply nodes_self|exact Hname].
    + now intros <- _.
Qed.

Lemma handleSearchChange_reveals_witness :
  tree (ui (run [ LoadTree "/a"; ListTreeSettled 0 (Fulfilled sampleTree);
                  SaveWorkspacePathSettled 0 (Fulfilled tt) ] initialWorld))
    = Some sampleTree /\
  kindsConsistent sampleTree /\
  exists rows k,
    FileTree (ui (step (run [ LoadTree "/a"; ListTreeSettled 0 (Fulfilled sampleTree);
                              SaveWorkspacePathSettled 0 (Fulfilled tt) ] initialWorld)
                       (SearchChange "TS"))) = TreeRowsView sampleTree rows /\
    In (k, fileNode "a.ts" "/src/a.ts") rows.
Proof.
  assert (Hk : kindsConsistent sampleTree) by by_evaluation.
  split; [reflexivity|]. split; [exact Hk|].
  destruct (handleSearchChange_reveals
              (run [ LoadTree "/a"; ListTreeSettled 0 (Fulfilled sampleTree);
                     SaveWorkspacePathSettled 0 (Fulfilled tt) ] initialWorld)
              sampleTree "T"%char "S" eq_refl eq_refl eq_refl eq_refl Hk)
    as (rows & Hview & _ & Hrows).
  destruct (Hrows (fileNode "a.ts" "/src/a.ts")) as (k & Hin).
  - vm_compute. auto.
  - reflexivity.
  - reflexivity.
  - exists rows, k. split; [exact Hview|exact Hin].
Defined.

(** X21. At start-up a failing store, a missing or an empty remembered path
    leave the application as it is, and so does a cancelled folder dialog;
    a remembered or chosen folder is loaded through [handleLoadTree]; a
    failing dialog sets a tree error that [FileTree] shows in place of the
    tree, which stays held. *)
Theorem entry_points (w : World) (message : string) (c : ascii) (p : string) :
  loadLastWorkspace (Rejected message) w = w /\
  loadLastWorkspace (Fulfilled None) w = w /\
  loadLastWorkspace (Fulfilled (Some "")) w = w /\
  handleConnectFolder_selected (Fulfilled None) w = w /\
  handleConnectFolder_selected (Fulfilled (Some "")) w = w /\
  loadLastWorkspace (Fulfilled (Some (String c p))) w = step w (LoadTree (String c p)) /\
  handleConnectFolder_selected (Fulfilled (Some (String c p))) w =
    step w (LoadTree (String c p)) /\
  tree (ui (handleConnectFolder_selected (Rejected message) w)) = tree (ui w) /\
  FileTree (ui (handleConnectFolder_selected (Rejected message) w)) =
    (if treeLoading (ui w) then TreeLoadingView
     else TreeErrorView ("Failed to open folder picker: " +:+ message)).
Proof.
  destruct w as [[wp tr tl te sel fc fl fe sf ex lf] pend nxt].
  repeat split; reflexivity.
Qed.

(** ** Lines, file names and extensions *)

Lemma append_cons c (s t : string) : String c s +:+ t = String c (s +:+ t).
Proof. reflexivity. Qed.

Lemma append_nil_l (t : string) : "" +:+ t = t.
Proof. reflexivity. Qed.

Lemma append_length (s t : string) :
  String.length (s +:+ t) = (String.length s + String.length t)%nat.
Proof.
  induction s as [|c s IH]; [reflexivity|].
  rewrite append_cons. simpl. now rewrite IH.
Qed.

Lemma split_length sep s : length (Js.split sep s) = S (countChar sep s).
Proof.
  induction s as [|c s IH]; simpl; [reflexivity|].
  destruct (Ascii.eqb c sep); simpl; [now rewrite IH|].
  destruct (Js.split sep s) as [|seg segs]; simpl in *; [discriminate|exact IH].
Qed.

(** X22. The viewer's lines are the text cut at its line feeds: a text
    with [k] line feeds gives [k + 1] lines, none of which holds a line
    feed, and joining them with line feeds gives the text back. *)
Theorem format_lines (path text : string) :
  length (lines (format path text)) = S (countChar Js.LF text) /\
  Forall (fun line => Js.includes line (String Js.LF "") = false)
         (lines (format path text)) /\
  Js.join Js.LF (lines (format path text)) = text.
Proof.
  cbn [format lines linesOf]. split; [apply split_length|].
  split; [apply split_segments|apply join_split].
Qed.

Lemma ownProperty_In key table v : ownProperty key table = Some v -> In (key, v) table.
Proof.
  induction table as [|[k0 v0] table IH]; simpl; [discriminate|].
  destruct (String.eqb_spec k0 key) as [->|Hne].
  - intros [= ->]. now left.
  - intros H. right. now apply IH.
Qed.

Lemma extensionOf_lowered path : Js.toLowerCase (extensionOf path) = extensionOf path.
Proof.
  unfold extensionOf. rewrite or_else_empty.
  destruct (Js.pop (Js.split Js.DOT path)); [apply toLowerCase_idem|reflexivity].
Qed.

(** X23. The language of a path is always "plaintext" or the table's label
    for the path's extension, except for the two lower-case member names of
    [Object.prototype], [constructor] and [__proto__], for which the lookup
    returns the inherited member. *)
Theorem getLanguageFromPath_range (path : string) :
  match getLanguageFromPath path with
  | JsString label => label = "plaintext" \/ In (extensionOf path, label) languageMap
  | JsInherited member =>
      member = extensionOf path /\ (member = "constructor" \/ member = "__proto__")
  end.
Proof.
  unfold getLanguageFromPath, languageMap_get.
  pose proof (extensionOf_lowered path) as Hlow.
  destruct (ownProperty (extensionOf path) languageMap) as [label|] eqn:Hown.
  - apply ownProperty_In in Hown. destruct (Js.truthy label); auto.
  - destruct (existsb (String.eqb (extensionOf path)) ObjectPrototype_properties) eqn:Hex;
      [|now left].
    split; [reflexivity|]. apply List.existsb_exists in Hex.
    destruct Hex as (k & Hk & Heq). apply String.eqb_eq in Heq. rewrite Heq in *.
    simpl in Hk.
    repeat (destruct Hk as [<-|Hk]; [first [now left | now right | discriminate Hlow]|]).
    destruct Hk.
Qed.

(** X24. The language depends on the path only through the text after its
    last dot, and not on the letter case of that text. *)
Theorem getLanguageFromPath_extension (stem stem' ext ext' : string) :
  Js.includes ext "." = false ->
  Js.includes ext' "." = false ->
  equalIgnoringCase ext ext' ->
  getLanguageFromPath (stem +:+ String Js.DOT ext) =
  getLanguageFromPath (stem' +:+ String Js.DOT ext').
Proof.
  intros H H' Heq. unfold getLanguageFromPath.
  now rewrite !extensionOf_dotted, Heq by assumption.
Qed.

Lemma getLanguageFromPath_extension_witness :
  Js.includes "TSX" "." = false /\
  getLanguageFromPath ("src/App" +:+ String Js.DOT "TSX") =
  getLanguageFromPath ("lib.d" +:+ String Js.DOT "tsx").
Proof.
  split; [reflexivity|].
  apply (getLanguageFromPath_extension "src/App" "lib.d" "TSX" "tsx"); reflexivity.
Defined.

Lemma includes_char_cons a s c :
  Js.includes (String a s) (String c "") = Ascii.eqb a c || Js.includes s (String c "").
Proof. simpl. destruct (Ascii.eqb a c); [now destruct s|reflexivity]. Qed.

Lemma lastIndexOf_from_free c s : forall i acc,
  Js.includes s (String c "") = false -> lastIndexOf_from c s i acc = acc.
Proof.
  induction s as [|a s IH]; intros i acc H; [reflexivity|].
  rewrite includes_char_cons in H. apply orb_false_iff in H. destruct H as [Ha Hs].
  cbn [lastIndexOf_from]. rewrite Ha. now apply IH.
Qed.

Lemma lastIndexOf_from_app c stem ext : forall i acc,
  Js.includes ext (String c "") = false ->
  lastIndexOf_from c (stem +:+ String c ext) i acc = (i + Z.of_nat (String.length stem))%Z.
Proof.
  induction stem as [|a stem IH]; intros i acc H.
  - rewrite append_nil_l. cbn [lastIndexOf_from]. rewrite Ascii.eqb_refl.
    rewrite (lastIndexOf_from_free c ext _ _ H). simpl. lia.
  - rewrite append_cons. cbn [lastIndexOf_from]. rewrite (IH _ _ H).
    cbn [String.length]. lia.
Qed.

Lemma dropString_app stem t : dropString (String.length stem) (stem +:+ t) = t.
Proof. induction stem as [|a stem IH]; [now destruct t|]. rewrite append_cons. exact IH. Qed.

Lemma slice_after stem c ext :
  slice (Z.of_nat (String.length stem) + 1) (stem +:+ String c ext) = ext.
Proof.
  unfold slice. rewrite append_length. cbn [String.length].
  replace (Z.of_nat (String.length stem) + 1 <? 0)%Z with false by (symmetry; apply Z.ltb_ge; lia).
  rewrite Z.min_l by lia.
  replace (Z.to_nat (Z.of_nat (String.length stem) + 1))
    with (String.length (stem +:+ String c "")) by (rewrite append_length; simpl; lia).
  replace (stem +:+ String c ext) with ((stem +:+ String c "") +:+ ext)
    by (now rewrite append_assoc).
  apply dropString_app.
Qed.

(** X25. [getFileExtension] gives the lowered text after the last dot of a
    file name whose last dot is not its first character; a name without a
    dot, or whose only dot leads it (such as [.gitignore]), has the empty
    extension.  On the former names it agrees with the extension the viewer
    uses, on a name without a dot the viewer takes the whole lowered name. *)
Theorem getFileExtension_spec (stem ext : string) (a : ascii) :
  Js.includes ext "." = false ->
  getFileExtension ext = "" /\
  getFileExtension (String Js.DOT ext) = "" /\
  getFileExtension (String a stem +:+ String Js.DOT ext) = Js.toLowerCase ext /\
  extensionOf (String a stem +:+ String Js.DOT ext) = Js.toLowerCase ext /\
  extensionOf ext = Js.toLowerCase ext.
Proof.
  intros Hfree. unfold getFileExtension, lastIndexOf. split; [|split; [|split; [|split]]].
  - now rewrite (lastIndexOf_from_free Js.DOT ext _ _ Hfree).
  - change (String Js.DOT ext) with ("" +:+ String Js.DOT ext).
    rewrite (lastIndexOf_from_app Js.DOT "" ext 0 (-1) Hfree). reflexivity.
  - rewrite (lastIndexOf_from_app Js.DOT (String a stem) ext 0 (-1) Hfree).
    rewrite Z.add_0_l.
    replace (Z.of_nat (String.length (String a stem)) =? -1)%Z with false
      by (symmetry; apply Z.eqb_neq; lia).
    replace (Z.of_nat (String.length (String a stem)) =? 0)%Z with false
      by (symmetry; apply Z.eqb_neq; simpl; lia).
    cbn [orb]. now rewrite slice_after.
  - now apply extensionOf_dotted.
  - now apply extensionOf_dotless.
Qed.

Lemma getFileExtension_spec_witness :
  Js.includes "RS" "." = false /\
  getFileExtension ("main.test" +:+ String Js.DOT "RS") = "rs".
Proof.
  split; [reflexivity|].
  exact (proj1 (proj2 (proj2 (getFileExtension_spec "ain.test" "RS" "m"%char eq_refl)))).
Defined.

(** X26. [getFilename] gives the text after the last slash of a path when
    that text is not empty, the path itself when it holds no slash, and the
    whole path again when it ends in a slash. *)
Theorem getFilename_spec (stem nm : string) (a : ascii) :
  Js.includes (String a nm) "/" = false ->
  getFilename (String a nm) = String a nm /\
  getFilename (stem +:+ String SLASH (String a nm)) = String a nm /\
  getFilename (stem +:+ String SLASH "") = stem +:+ String SLASH "".
Proof.
  intros Hfree. unfold getFilename. split; [|split].
  - now rewrite (split_dotless SLASH (String a nm) Hfree).
  - now rewrite split_app, (split_dotless SLASH (String a nm) Hfree), pop_app by discriminate.
  - rewrite split_app, pop_app by discriminate. reflexivity.
Qed.

Lemma getFilename_spec_witness :
  Js.includes "App.tsx" "/" = false /\
  getFilename ("src/components" +:+ String SLASH "App.tsx") = "App.tsx".
Proof.
  split; [reflexivity|].
  exact (proj1 (proj2 (getFilename_spec "src/components" "pp.tsx" "A"%char eq_refl))).
Defined.

Lemma dropString_split k : forall s,
  (k <= String.length s)%nat ->
  exists head, s = head +:+ dropString k s /\ String.length head = k.
Proof.
  induction k as [|k IH]; intros s Hk.
  - exists "". split; reflexivity.
  - destruct s as [|c s]; [simpl in Hk; lia|].
    destruct (IH s) as (head & Hs & Hlen); [simpl in Hk; lia|].
    exists (String c head). split; [|simpl; now rewrite Hlen].
    rewrite append_cons. cbn [dropString]. now rewrite <- Hs.
Qed.

(** X27. The header shows no path before a workspace is connected, a
    path of at most 40 code units as it is, and of a longer path the
    ellipsis followed by exactly its last 38 code units. *)
Theorem displayPath_truncates (ellipsis wp : string) :
  (40 < String.length wp)%nat ->
  (exists head tail,
      wp = head +:+ tail /\ String.length tail = 38%nat /\
      displayPath ellipsis (Some wp) = Some (ellipsis +:+ tail)) /\
  displayPath ellipsis None = None /\
  displayPath ellipsis (Some "") = None /\
  (forall c short, (String.length (String c short) <= 40)%nat ->
                   displayPath ellipsis (Some (String c short)) = Some (String c short)).
Proof.
  intros Hlong. split; [|split; [reflexivity|split; [reflexivity|]]].
  - destruct (dropString_split (String.length wp - 38) wp) as (head & Hwp & Hhead); [lia|].
    exists head, (dropString (String.length wp - 38) wp).
    split; [exact Hwp|]. split.
    + apply (f_equal String.length) in Hwp. rewrite append_length in Hwp. lia.
    + unfold displayPath. destruct wp as [|c p]; [simpl in Hlong; lia|].
      apply Nat.ltb_lt in Hlong. rewrite Hlong. unfold slice.
      change (-38 <? 0)%Z with true. cbv iota.
      rewrite Z.max_l by (apply Nat.ltb_lt in Hlong; lia).
      replace (Z.to_nat (Z.of_nat (String.length (String c p)) + -38))
        with (String.length (String c p) - 38)%nat by lia.
      reflexivity.
  - intros c short Hshort. unfold displayPath.
    replace (40 <? String.length (String c short))%nat with false
      by (symmetry; apply Nat.ltb_ge; exact Hshort).
    reflexivity.
Qed.

Lemma displayPath_truncates_witness :
  (40 < String.length "/home/user/projects/ponder/workspaces/demo-app")%nat /\
  exists head tail,
    "/home/user/projects/ponder/workspaces/demo-app" = head +:+ tail /\
    String.length tail = 38%nat /\
    displayPath "..." (Some "/home/user/projects/ponder/workspaces/demo-app") =
      Some ("..." +:+ tail).
Proof.
  assert (H : (40 < String.length "/home/user/projects/ponder/workspaces/demo-app")%nat)
    by (vm_compute; lia).
  split; [exact H|].
  exact (proj1 (displayPath_truncates "..."
                  "/home/user/projects/ponder/workspaces/demo-app" H)).
Defined.
